(** * Felte core helpers: a shallow embedding of [createHelpers]

    Source: [packages/core/src/helpers.ts].  The helpers own three stores
    ([data], [touched], [errors]) and expose [setTouched], [setError],
    [setField], [setFields], [validate] and [reset].

    The structural operations the helpers import from [@felte/common]
    ([_set], [_get], [_cloneDeep], [deepSet], [_merge],
    [executeValidation]) are defined in that package, not in
    [helpers.ts]; each is modelled from the specification and marked as
    such.  The specification describes every one of them as returning a
    new root, so in the first model the stores hold trees as values.
    The second model ([Ref]) holds the same trees as objects of a heap,
    by reference, for what depends on who else holds an object: there
    the helpers are shown to allocate and never to write into an object
    that exists, and the copy-on-write [_set] to agree with the one on
    trees. *)

From Stdlib Require Import List String Ascii ZArith Bool Arith Lia.
From Stdlib Require Import DecimalString.
From Stdlib Require DecimalNat.
Import ListNotations.
Open Scope string_scope.
Open Scope list_scope.

Set Warnings "-register-all".

(** ** Value trees *)

(** A Value / Touched / Error tree: scalars, ordered sequences and keyed
    mappings.  [VOpaque] stands for a non-plain value (a Date, a File)
    that is carried by reference and known only by its identity.  Object
    fields are kept in insertion order. *)
Inductive value : Type :=
| VUndef
| VBool (b : bool)
| VNum (n : Z)
| VStr (s : string)
| VOpaque (id : nat)
| VArr (items : list value)
| VObj (fields : list (string * value)).

Definition VTrue : value := VBool true.
Definition VFalse : value := VBool false.

(** The empty object literal [{}]. *)
Definition empty_obj : value := VObj [].

(** JavaScript's ToBoolean, as used by [a || b]. *)
Definition truthy (v : value) : bool :=
  match v with
  | VUndef => false
  | VBool b => b
  | VNum n => negb (Z.eqb n 0)
  | VStr s => negb (String.eqb s "")
  | VOpaque _ => true
  | VArr _ => true
  | VObj _ => true
  end.

(** [a || b]. *)
Definition js_or (a b : value) : value := if truthy a then a else b.

(** Induction over trees that also reaches into the items of an array and
    the fields of an object. *)
Section ValueInd.
Variable P : value -> Prop.
Hypothesis HUndef : P VUndef.
Hypothesis HBool : forall b, P (VBool b).
Hypothesis HNum : forall n, P (VNum n).
Hypothesis HStr : forall s, P (VStr s).
Hypothesis HOpaque : forall id, P (VOpaque id).
Hypothesis HArr : forall items, Forall P items -> P (VArr items).
Hypothesis HObj :
  forall fields, Forall (fun kv => P (snd kv)) fields -> P (VObj fields).

Fixpoint value_tree_ind (v : value) : P v :=
  match v with
  | VUndef => HUndef
  | VBool b => HBool b
  | VNum n => HNum n
  | VStr s => HStr s
  | VOpaque id => HOpaque id
  | VArr items =>
      HArr items
        ((fix go (l : list value) : Forall P l :=
            match l with
            | [] => Forall_nil _
            | x :: tl => Forall_cons _ (value_tree_ind x) (go tl)
            end) items)
  | VObj fields =>
      HObj fields
        ((fix go (l : list (string * value))
            : Forall (fun kv => P (snd kv)) l :=
            match l with
            | [] => Forall_nil _
            | kv :: tl => Forall_cons _ (value_tree_ind (snd kv)) (go tl)
            end) fields)
  end.
End ValueInd.

(** ** Failures *)

Inductive exn : Type :=
| MalformedPath (path : string)
| ValidatorFailure (reason : value).

Inductive result (A : Type) : Type :=
| Ok (a : A)
| Throw (e : exn).
Arguments Ok {A} a.
Arguments Throw {A} e.

(** ** Path codec *)

Inductive segment : Type :=
| Key (k : string)
| Index (i : nat).

Definition digit_of (c : ascii) : option nat :=
  let n := nat_of_ascii c in
  if ((48 <=? n) && (n <=? 57))%nat then Some (n - 48) else None.

Definition is_empty (s : string) : bool :=
  match s with EmptyString => true | String _ _ => false end.

(** Where the reader stands inside a path: in a named segment (with the
    characters read so far), between [[] and []] (with the digits read so
    far), or just after a []]. *)
Inductive pstate : Type :=
| InKey (acc : string)
| InIndex (acc : option nat)
| AfterIndex.

Definition push_seg (s : segment) (r : option (list segment))
  : option (list segment) :=
  option_map (cons s) r.

(** Modelled from the spec: the path codec's [parse] of [@felte/common],
    for the grammar [segment ('.' segment | '[' index ']')*]; [None] is
    MalformedPath (an empty segment, or an index that is not a
    non-negative integer literal).  A segment is read as any non-empty
    run of characters other than the dot and the two brackets. *)
Fixpoint parse_from (st : pstate) (p : string) : option (list segment) :=
  match p with
  | EmptyString =>
      match st with
      | InKey acc => if is_empty acc then None else Some [Key acc]
      | InIndex _ => None
      | AfterIndex => Some []
      end
  | String c rest =>
      match st with
      | InKey acc =>
          if Ascii.eqb c "."%char then
            if is_empty acc then None
            else push_seg (Key acc) (parse_from (InKey "") rest)
          else if Ascii.eqb c "["%char then
            if is_empty acc then None
            else push_seg (Key acc) (parse_from (InIndex None) rest)
          else if Ascii.eqb c "]"%char then None
          else parse_from (InKey (acc ++ String c "")%string) rest
      | InIndex acc =>
          if Ascii.eqb c "]"%char then
            match acc with
            | None => None
            | Some n => push_seg (Index n) (parse_from AfterIndex rest)
            end
          else
            match digit_of c with
            | Some d =>
                let n := match acc with None => 0 | Some n => n end in
                parse_from (InIndex (Some (10 * n + d))) rest
            | None => None
            end
      | AfterIndex =>
          if Ascii.eqb c "."%char then parse_from (InKey "") rest
          else if Ascii.eqb c "["%char then parse_from (InIndex None) rest
          else None
      end
  end.

Definition parse (path : string) : option (list segment) :=
  parse_from (InKey "") path.

(** ** Deep structural operations *)

Fixpoint lookup_field (k : string) (fs : list (string * value))
  : option value :=
  match fs with
  | [] => None
  | (k', v) :: tl => if String.eqb k k' then Some v else lookup_field k tl
  end.

(** Assigning [obj[k] = v]: an existing key keeps its place, a new key
    goes last. *)
Fixpoint put_field (k : string) (v : value) (fs : list (string * value))
  : list (string * value) :=
  match fs with
  | [] => [(k, v)]
  | (k', v') :: tl =>
      if String.eqb k k' then (k, v) :: tl else (k', v') :: put_field k v tl
  end.

(** Assigning [arr[i] = v]: writing past the end extends the array, the
    positions in between read as undefined. *)
Fixpoint put_item (i : nat) (v : value) (xs : list value) : list value :=
  match i, xs with
  | O, [] => [v]
  | O, _ :: tl => v :: tl
  | S j, [] => VUndef :: put_item j v []
  | S j, x :: tl => x :: put_item j v tl
  end.

(** One step of [resolve]: a missing key, a position out of range, or a
    container of the other kind all read as undefined. *)
Definition child (s : segment) (root : value) : value :=
  match s, root with
  | Key k, VObj fs =>
      match lookup_field k fs with Some v => v | None => VUndef end
  | Index i, VArr xs => nth i xs VUndef
  | _, _ => VUndef
  end.

(** Modelled from the spec: [resolve(segments, root)] of the path codec:
    walks [root] along the segments and yields undefined as soon as an
    intermediate is missing. *)
Fixpoint resolve (segs : list segment) (root : value) : value :=
  match segs with
  | [] => root
  | s :: rest => resolve rest (child s root)
  end.

(** A fresh container with child [s] replaced by [v].  A named segment
    needs an object and an indexed one an array; when [root] is not that
    kind of container it counts as absent and a new one is created. *)
Definition replace_child (s : segment) (v : value) (root : value) : value :=
  match s with
  | Key k =>
      VObj (put_field k v (match root with VObj fs => fs | _ => [] end))
  | Index i =>
      VArr (put_item i v (match root with VArr xs => xs | _ => [] end))
  end.

(** Copy-on-write along the path: every container on the way down is
    rebuilt, every sibling is kept as it is. *)
Fixpoint set_at (segs : list segment) (v : value) (root : value) : value :=
  match segs with
  | [] => v
  | s :: rest => replace_child s (set_at rest v (child s root)) root
  end.

(** Modelled from the spec: [_get(root, path)] of [@felte/common], a
    read-only resolve that yields undefined for a missing path and fails
    with MalformedPath on a path outside the grammar. *)
Definition _get (root : value) (path : string) : result value :=
  match parse path with
  | Some segs => Ok (resolve segs root)
  | None => Throw (MalformedPath path)
  end.

(** Modelled from the spec: [_set(root, path, value)] of [@felte/common]:
    a new root with the target location replaced by [value]; missing
    intermediate containers are created as an array when the next
    segment is an index and as an object otherwise. *)
Definition _set (root : value) (path : string) (v : value) : result value :=
  match parse path with
  | Some segs => Ok (set_at segs v root)
  | None => Throw (MalformedPath path)
  end.

(** Modelled from the spec: [_cloneDeep(value)] of [@felte/common]: every
    array and object is rebuilt, scalars and non-plain values are carried
    over as they are. *)
Fixpoint _cloneDeep (v : value) : value :=
  match v with
  | VArr items => VArr (map _cloneDeep items)
  | VObj fields => VObj (map (fun kv => (fst kv, _cloneDeep (snd kv))) fields)
  | _ => v
  end.

(** Modelled from the spec: [deepSet(root, constant)] of [@felte/common]:
    the same shape as [root] with every leaf replaced by [constant]. *)
Fixpoint deepSet (root : value) (c : value) : value :=
  match root with
  | VArr items => VArr (map (fun x => deepSet x c) items)
  | VObj fields =>
      VObj (map (fun kv => (fst kv, deepSet (snd kv) c)) fields)
  | _ => c
  end.

(** Neither an array nor an object. *)
Definition is_leaf (v : value) : bool :=
  match v with
  | VArr _ | VObj _ => false
  | _ => true
  end.

Section Forall2b.
Context {A B : Type} (f : A -> B -> bool).

(** [f] holds of the two lists position by position, and they have the
    same length. *)
Fixpoint forall2b (l : list A) (r : list B) : bool :=
  match l, r with
  | [], [] => true
  | x :: tl, y :: tr => f x y && forall2b tl tr
  | _, _ => false
  end.
End Forall2b.

(** Value equality of two trees. *)
Fixpoint value_eqb (a b : value) : bool :=
  match a, b with
  | VUndef, VUndef => true
  | VBool x, VBool y => Bool.eqb x y
  | VNum x, VNum y => Z.eqb x y
  | VStr x, VStr y => String.eqb x y
  | VOpaque x, VOpaque y => Nat.eqb x y
  | VArr xs, VArr ys => forall2b value_eqb xs ys
  | VObj fs, VObj gs =>
      forall2b
        (fun kv kw =>
           String.eqb (fst kv) (fst kw) && value_eqb (snd kv) (snd kw))
        fs gs
  | _, _ => false
  end.

(** Every leaf of the tree is [c]. *)
Fixpoint all_leaves (c : value) (v : value) : bool :=
  match v with
  | VArr items => forallb (all_leaves c) items
  | VObj fields => forallb (fun kv => all_leaves c (snd kv)) fields
  | _ => value_eqb v c
  end.

(** Two trees have the same shape: the same containers with the same
    lengths and the same keys in the same order, leaves facing leaves. *)
Fixpoint same_shape (a b : value) : bool :=
  match a, b with
  | VArr xs, VArr ys => forall2b same_shape xs ys
  | VObj fs, VObj gs =>
      forall2b
        (fun kv kw =>
           String.eqb (fst kv) (fst kw) && same_shape (snd kv) (snd kw))
        fs gs
  | _, _ => is_leaf a && is_leaf b
  end.

(** The paths [p] and [q] part ways at two segments of the same kind
    (two different keys, or two different positions); neither leads into
    the other. *)
Fixpoint diverge (p q : list segment) : bool :=
  match p, q with
  | Key a :: p', Key b :: q' =>
      if String.eqb a b then diverge p' q' else true
  | Index i :: p', Index j :: q' =>
      if Nat.eqb i j then diverge p' q' else true
  | _, _ => false
  end.

(** Modelled from the spec: [_merge(a, b)] of [@felte/common], a deep
    merge in which [b]'s leaves win: two objects are merged key by key,
    anything else is replaced by [b]. *)
Fixpoint _merge (a b : value) : value :=
  match b with
  | VObj gs =>
      match a with
      | VObj fs =>
          VObj
            (fold_left
               (fun acc kw =>
                  put_field (fst kw)
                    (match lookup_field (fst kw) acc with
                     | Some old => _merge old (snd kw)
                     | None => snd kw
                     end)
                    acc)
               gs fs)
      | _ => b
      end
  | _ => b
  end.

(** ** Validation executor *)

(** A validation function: from the snapshot it is handed to an Error
    Tree, to undefined (no errors), or to a failure (it threw, or the
    promise it returned was rejected).  Whether it answers at once or
    later is not part of its value. *)
Definition validator : Type := value -> result value.

(** Every validator is handed the same snapshot; the first failure in
    registry order is the failure of the whole batch. *)
Fixpoint run_validators (vs : list validator) (snapshot : value)
  : result (list value) :=
  match vs with
  | [] => Ok []
  | v :: rest =>
      match v snapshot with
      | Throw e => Throw e
      | Ok r =>
          match run_validators rest snapshot with
          | Throw e => Throw e
          | Ok rs => Ok (r :: rs)
          end
      end
  end.

(** Results are merged in registry order; an empty result adds nothing,
    and all of them empty gives empty. *)
Definition merge_results (rs : list value) : value :=
  fold_left
    (fun acc r =>
       match acc, r with
       | _, VUndef => acc
       | VUndef, _ => r
       | _, _ => _merge acc r
       end)
    rs VUndef.

(** Modelled from the spec: [executeValidation(data, validators)] of
    [@felte/common]: runs every validator against the same snapshot,
    fails when one of them fails, and otherwise merges their results in
    registry order. *)
Definition executeValidation (snapshot : value) (vs : list validator)
  : result value :=
  match run_validators vs snapshot with
  | Throw e => Throw e
  | Ok rs => Ok (merge_results rs)
  end.

(** ** The control-binding bridge *)

(** What the helpers need from the DOM side: the elements of a form
    with their [name], and the helpers [isFormControl], [getPath],
    [setControlValue] and [setForm] of [@felte/common], which are
    defined in that package and taken here as an interface. *)
Class Bridge : Type := {
  element : Type;
  isFormControl : element -> bool;
  name : element -> string;
  getPath : element -> string;
  setControlValue : element -> value -> element;
  setForm : list element -> value -> list element
}.

(** ** The engine *)

Inductive store_id : Type := DataStore | TouchedStore | ErrorsStore.

(** One write to a store, as its subscribers see it. *)
Inductive event : Type :=
| Published (s : store_id) (v : value).

Section Engine.
Context {bridge : Bridge}.

(** The state [createHelpers] closes over: the current value of the
    three stores, [formNode] (the elements of the attached form, if
    any), [initialValues], [config.validate], and the writes the
    stores have published so far, oldest first. *)
Record engine : Type := mkEngine {
  data : value;
  touched : value;
  errors : value;
  formNode : option (list element);
  initialValues : value;
  config_validate : list validator;
  log : list event
}.

(** A helper runs against the engine, changes it, and either returns
    or throws; what it changed before throwing stays changed. *)
Definition M (A : Type) : Type := engine -> result A * engine.

Definition ret {A} (a : A) : M A := fun st => (Ok a, st).
Definition throw {A} (e : exn) : M A := fun st => (Throw e, st).
Definition bind {A B} (c : M A) (k : A -> M B) : M B :=
  fun st =>
    match c st with
    | (Ok a, st') => k a st'
    | (Throw e, st') => (Throw e, st')
    end.

Definition read (s : store_id) (st : engine) : value :=
  match s with
  | DataStore => data st
  | TouchedStore => touched st
  | ErrorsStore => errors st
  end.

Definition write (s : store_id) (v : value) (st : engine) : engine :=
  let log' := log st ++ [Published s v] in
  match s with
  | DataStore =>
      mkEngine v (touched st) (errors st) (formNode st)
        (initialValues st) (config_validate st) log'
  | TouchedStore =>
      mkEngine (data st) v (errors st) (formNode st)
        (initialValues st) (config_validate st) log'
  | ErrorsStore =>
      mkEngine (data st) (touched st) v (formNode st)
        (initialValues st) (config_validate st) log'
  end.

Definition with_formNode (f : option (list element)) (st : engine)
  : engine :=
  mkEngine (data st) (touched st) (errors st) f
    (initialValues st) (config_validate st) (log st).

Definition with_initialValues (v : value) (st : engine) : engine :=
  mkEngine (data st) (touched st) (errors st) (formNode st)
    v (config_validate st) (log st).
End Engine.

Notation "x <- c ;; k" := (bind c (fun x => k))
  (at level 61, c at next level, right associativity).
Notation "c ;;; k" := (bind c (fun _ => k))
  (at level 61, right associativity).

Section Helpers.
Context {bridge : Bridge}.

(** *** The store primitive *)

(** [get(store)]. *)
Definition store_get (s : store_id) : M value :=
  fun st => (Ok (read s st), st).

(** [store.set(v)]. *)
Definition store_set (s : store_id) (v : value) : M unit :=
  fun st => (Ok tt, write s v st).

(** [store.update(fn)]: reads, applies [fn], sets the result; when
    [fn] throws nothing is set. *)
Definition store_update (s : store_id) (fn : value -> result value)
  : M unit :=
  v <- store_get s;;
  match fn v with
  | Ok v' => store_set s v'
  | Throw e => throw e
  end.

Definition get_formNode : M (option (list element)) :=
  fun st => (Ok (formNode st), st).

Definition put_formNode (f : option (list element)) : M unit :=
  fun st => (Ok tt, with_formNode f st).

Definition get_initialValues : M value :=
  fun st => (Ok (initialValues st), st).

Definition get_config_validate : M (list validator) :=
  fun st => (Ok (config_validate st), st).

(** *** [createHelpers] *)

(** The engine right after [createHelpers({stores, config})]: no form
    attached, [initialValues = config.initialValues ?? {}]. *)
Definition createHelpers (d t e : value) (config_initialValues : value)
    (validate_fns : list validator) : engine :=
  mkEngine d t e None
    (match config_initialValues with
     | VUndef => empty_obj
     | _ => config_initialValues
     end)
    validate_fns [].

Definition nat_to_string (n : nat) : string :=
  NilEmpty.string_of_uint (Nat.to_uint n).

(** A JS number as a template string prints it.  A whole number from 0
    up to, not including, 10^21 prints as its decimal digits.  Every
    other number (a negative or fractional one, 10^21 and beyond, NaN,
    an infinity) is known here by what it prints as, for instance
    [-1], [1.5], [1e+21]. *)
Inductive number : Type :=
| Whole (n : nat) (small : (N.of_nat n <? 10 ^ 21)%N = true)
| Other (shown : string).

Definition number_to_string (x : number) : string :=
  match x with
  | Whole n _ => nat_to_string n
  | Other shown => shown
  end.

(** [setTouched(fieldName, index?)]. *)
Definition setTouched (fieldName : string) (index : option number)
  : M unit :=
  let path :=
    match index with
    | None => fieldName
    | Some i => (fieldName ++ "[" ++ number_to_string i ++ "]")%string
    end in
  store_update TouchedStore (fun t => _set t path VTrue).

(** [setError(path, error)]. *)
Definition setError (path : string) (error : value) : M unit :=
  store_update ErrorsStore (fun e => _set e path error).

(** The loop of [setField] over [formNode.elements]: an element that
    is not a form control or has no name is skipped, so is one whose
    path differs; the first one left receives the value and the loop
    returns. *)
Fixpoint push_to_first (path : string) (v : value) (els : list element)
  : list element :=
  match els with
  | [] => []
  | control :: rest =>
      if negb (isFormControl control) || is_empty (name control)
      then control :: push_to_first path v rest
      else if negb (String.eqb path (getPath control))
      then control :: push_to_first path v rest
      else setControlValue control v :: rest
  end.

(** [setField(path, value, touch)]. *)
Definition setField (path : string) (v : value) (touch : bool) : M unit :=
  store_update DataStore (fun d => _set d path v);;;
  (if touch then setTouched path None else ret tt);;;
  node <- get_formNode;;
  match node with
  | None => ret tt
  | Some els => put_formNode (Some (push_to_first path v els))
  end.

(** [setFields(values)]. *)
Definition setFields (values : value) : M unit :=
  store_set DataStore (_cloneDeep values);;;
  node <- get_formNode;;
  match node with
  | None => ret tt
  | Some els => put_formNode (Some (setForm els values))
  end.

(** [validate] is asynchronous and suspends once, at its [await].
    What is alive across the suspension: [currentData], and the promise
    [executeValidation(currentData, config.validate)], known here by
    what it settles to. *)
Record suspended : Type := mkSuspended {
  currentData : value;
  awaited : result value
}.

(** [validate] from its entry to the [await]. *)
Definition validate_begin : M suspended :=
  d <- store_get DataStore;;
  store_update TouchedStore (fun t => Ok (deepSet t VTrue));;;
  fns <- get_config_validate;;
  ret (mkSuspended d (executeValidation d fns)).

(** [validate] from the [await] to its return: a rejected promise is
    rethrown, a fulfilled one is published. *)
Definition validate_resume (s : suspended) : M value :=
  match awaited s with
  | Throw e => throw e
  | Ok currentErrors =>
      store_set ErrorsStore (js_or currentErrors empty_obj);;;
      ret currentErrors
  end.

(** [validate()] when nothing else runs while it is suspended. *)
Definition validate : M value :=
  s <- validate_begin;;
  validate_resume s.

(** [reset()]. *)
Definition reset : M unit :=
  iv <- get_initialValues;;
  setFields (_cloneDeep iv);;;
  store_update TouchedStore (fun t => Ok (deepSet t VFalse)).

(** The private accessors. *)
Definition _setFormNode (node : list element) : M unit :=
  put_formNode (Some node).

Definition _getFormNode : M (option (list element)) := get_formNode.

Definition _getInitialValues : M value := get_initialValues.

Definition _setInitialValues (values : value) : M unit :=
  fun st => (Ok tt, with_initialValues values st).

(** *** Calls made while a validation is suspended *)

(** A call to one of the synchronous public helpers. *)
Inductive call : Type :=
| CallSetField (path : string) (v : value) (touch : bool)
| CallSetFields (values : value)
| CallSetTouched (fieldName : string) (index : option number)
| CallSetError (path : string) (error : value)
| CallReset.

Definition run_call (c : call) : M unit :=
  match c with
  | CallSetField path v touch => setField path v touch
  | CallSetFields values => setFields values
  | CallSetTouched fieldName index => setTouched fieldName index
  | CallSetError path error => setError path error
  | CallReset => reset
  end.

(** The calls run one after the other; one that throws throws to its
    own caller and the next one still runs. *)
Definition run_calls (cs : list call) (st : engine) : engine :=
  fold_left (fun st c => snd (run_call c st)) cs st.

(** [validate()] with the calls [cs] made between its [await] and the
    settling of the validators. *)
Definition validate_interleaved (cs : list call) (st : engine)
  : result value * engine :=
  match validate_begin st with
  | (Ok s, st1) => validate_resume s (run_calls cs st1)
  | (Throw e, st1) => (Throw e, st1)
  end.

(** The writes of the log that went to store [s]. *)
Definition published_to (s : store_id) (l : list event) : list value :=
  flat_map
    (fun ev =>
       match ev, s with
       | Published DataStore v, DataStore => [v]
       | Published TouchedStore v, TouchedStore => [v]
       | Published ErrorsStore v, ErrorsStore => [v]
       | _, _ => []
       end)
    l.

(** The computation only ever adds writes at the end of the log. *)
Definition appends_only {A} (m : M A) : Prop :=
  forall st, exists l, log (snd (m st)) = log st ++ l.
(** What no public helper changes: [initialValues], [config.validate],
    and whether a form is attached. *)
Definition same_setup (st st' : engine) : Prop :=
  initialValues st' = initialValues st /\
  config_validate st' = config_validate st /\
  (formNode st' = None <-> formNode st = None).

Definition keeps_setup {A} (m : M A) : Prop :=
  forall st, same_setup st (snd (m st)).

(** The contents of the three stores and the writes they published. *)
Definition stores (st : engine) : value * value * value * list event :=
  (data st, touched st, errors st, log st).

(** Two calls of [validate()] that overlap: the first suspends, the
    calls [cs] run, the second starts and suspends; the validators of
    the second settle first, then those of the first.  Returns what the
    first and the second call return, in that order. *)
Definition validate_overlapped (cs : list call) (st : engine)
  : result value * result value * engine :=
  match validate_begin st with
  | (Ok first, st1) =>
      match validate_begin (run_calls cs st1) with
      | (Ok second, st2) =>
          let (r2, st3) := validate_resume second st2 in
          let (r1, st4) := validate_resume first st3 in
          (r1, r2, st4)
      | (Throw e, st2) => (Throw e, Throw e, st2)
      end
  | (Throw e, st1) => (Throw e, Throw e, st1)
  end.
End Helpers.

Section Matching.
Context {bridge : Bridge}.

(** The element is a form control that stands for a field (it has a
    name) and its derived path is [path]: the element the loop of
    [setField] stops at. *)
Definition is_control_at (path : string) (c : element) : bool :=
  isFormControl c && negb (is_empty (name c))
  && String.eqb path (getPath c).
End Matching.

(** ** The helpers over objects held by reference

    The stores of the engine hold JavaScript objects, and an object is
    held by reference: [validate] hands its validators the very object
    the data store holds at that moment.  This second model keeps the
    objects in a heap, so that writing into an object somebody else
    holds can be told from building a new one. *)

Module Ref.

(** What a variable, a store or a slot of a container holds: a scalar,
    or the address of an array or object. *)
Inductive hval : Type :=
| HUndef
| HBool (b : bool)
| HNum (n : Z)
| HStr (s : string)
| HOpaque (id : nat)
| HRef (l : nat).

Inductive cell : Type :=
| CArr (items : list hval)
| CObj (fields : list (string * hval)).

(** The heap, newest cell first: the cell allocated [k]-th (from 0) has
    address [k]. *)
Definition heap : Type := list cell.

Definition at_loc {A} (l : nat) (xs : list A) : option A :=
  if Nat.ltb l (List.length xs) then nth_error xs (List.length xs - 1 - l)
  else None.

(** A new array or object. *)
Definition alloc (c : cell) (h : heap) : hval * heap :=
  (HRef (List.length h), c :: h).

(** The assignment [obj[k] = v] on the object at address [l]: the cell
    is overwritten where it stands.  None of the helpers does this;
    it is what altering an object somebody holds would be. *)
Fixpoint overwrite (l : nat) (c : cell) (h : heap) : heap :=
  match h with
  | [] => []
  | c0 :: older =>
      if Nat.eqb l (List.length older) then c :: older
      else c0 :: overwrite l c older
  end.

(** The held value is a scalar or an address in use. *)
Definition valid (h : heap) (v : hval) : bool :=
  match v with
  | HRef l => Nat.ltb l (List.length h)
  | _ => true
  end.

Definition cell_valid (h : heap) (c : cell) : bool :=
  match c with
  | CArr items => forallb (valid h) items
  | CObj fields => forallb (fun kv => valid h (snd kv)) fields
  end.

(** Every container holds scalars and addresses of containers older
    than itself. *)
Fixpoint closed (h : heap) : bool :=
  match h with
  | [] => true
  | c :: older => cell_valid older c && closed older
  end.

(** *** Reading a tree out of the heap *)

Definition tree_in (ts : list value) (v : hval) : value :=
  match v with
  | HUndef => VUndef
  | HBool b => VBool b
  | HNum n => VNum n
  | HStr s => VStr s
  | HOpaque id => VOpaque id
  | HRef l => match at_loc l ts with Some t => t | None => VUndef end
  end.

Definition build (ts : list value) (c : cell) : value :=
  match c with
  | CArr items => VArr (map (tree_in ts) items)
  | CObj fields => VObj (map (fun kv => (fst kv, tree_in ts (snd kv))) fields)
  end.

(** The tree of every cell, newest first.  A cell is read against the
    cells older than itself, which is where everything it can hold was
    when it was made. *)
Fixpoint trees (h : heap) : list value :=
  match h with
  | [] => []
  | c :: older => build (trees older) c :: trees older
  end.

(** The tree somebody holding [v] sees in heap [h]. *)
Definition tree_of (h : heap) (v : hval) : value := tree_in (trees h) v.

(** Heap [h'] is heap [h] with more cells allocated: every cell of [h]
    is in [h'] at its address with its contents. *)
Definition grows (h h' : heap) : Prop := exists ext, h' = ext ++ h.

(** *** Structural operations *)

Fixpoint lookup_slot {A} (k : string) (fs : list (string * A)) : option A :=
  match fs with
  | [] => None
  | (k', v) :: tl => if String.eqb k k' then Some v else lookup_slot k tl
  end.

Fixpoint put_slot {A} (k : string) (v : A) (fs : list (string * A))
  : list (string * A) :=
  match fs with
  | [] => [(k, v)]
  | (k', v') :: tl =>
      if String.eqb k k' then (k, v) :: tl else (k', v') :: put_slot k v tl
  end.

Fixpoint put_nth {A} (d : A) (i : nat) (v : A) (xs : list A) : list A :=
  match i, xs with
  | O, [] => [v]
  | O, _ :: tl => v :: tl
  | S j, [] => d :: put_nth d j v []
  | S j, x :: tl => x :: put_nth d j v tl
  end.

Definition cell_of (h : heap) (v : hval) : option cell :=
  match v with
  | HRef l => at_loc l h
  | _ => None
  end.

(** One step of a path from [root]: what the slot holds. *)
Definition child (h : heap) (s : segment) (root : hval) : hval :=
  match s, cell_of h root with
  | Key k, Some (CObj fs) =>
      match lookup_slot k fs with Some v => v | None => HUndef end
  | Index i, Some (CArr xs) => nth i xs HUndef
  | _, _ => HUndef
  end.

(** The contents of a new container: those of [old] with slot [s]
    holding [v]; every other slot holds what it held, by reference. *)
Definition replace_slot (s : segment) (v : hval) (old : option cell) : cell :=
  match s with
  | Key k =>
      CObj (put_slot k v (match old with Some (CObj fs) => fs | _ => [] end))
  | Index i =>
      CArr (put_nth HUndef i v
              (match old with Some (CArr xs) => xs | _ => [] end))
  end.

(** Copy-on-write along the path: one new container per segment, none
    of the old ones written. *)
Fixpoint set_at (segs : list segment) (v : hval) (root : hval) (h : heap)
  : hval * heap :=
  match segs with
  | [] => (v, h)
  | s :: rest =>
      let (c, h1) := set_at rest v (child h s root) h in
      alloc (replace_slot s c (cell_of h root)) h1
  end.

(** Modelled from the spec: [_set(root, path, value)] of
    [@felte/common] over the heap: a new root, every container along
    the path freshly allocated, all siblings reused by reference. *)
Definition _set (h : heap) (root : hval) (path : string) (v : hval)
  : result (hval * heap) :=
  match parse path with
  | Some segs => Ok (set_at segs v root h)
  | None => Throw (MalformedPath path)
  end.

Section AllocList.
Context {A : Type} (f : A -> heap -> hval * heap).

Fixpoint alloc_list (l : list A) (h : heap) : list hval * heap :=
  match l with
  | [] => ([], h)
  | x :: tl =>
      let (r, h1) := f x h in
      let (rs, h2) := alloc_list tl h1 in
      (r :: rs, h2)
  end.
End AllocList.

(** New containers holding the tree [t]. *)
Fixpoint alloc_tree (t : value) (h : heap) : hval * heap :=
  match t with
  | VUndef => (HUndef, h)
  | VBool b => (HBool b, h)
  | VNum n => (HNum n, h)
  | VStr s => (HStr s, h)
  | VOpaque id => (HOpaque id, h)
  | VArr items =>
      let (rs, h1) := alloc_list alloc_tree items h in
      alloc (CArr rs) h1
  | VObj fields =>
      let (rs, h1) := alloc_list (fun kv => alloc_tree (snd kv)) fields h in
      alloc (CObj (combine (map fst fields) rs)) h1
  end.

Section Allocates.
Context {A : Type} (f : A -> heap -> hval * heap) (g : A -> value).

(** [f x] only allocates, and what it returns reads as the tree [g x]. *)
Definition allocates (x : A) : Prop :=
  forall h,
    grows h (snd (f x h)) /\
    valid (snd (f x h)) (fst (f x h)) = true /\
    tree_of (snd (f x h)) (fst (f x h)) = g x.
End Allocates.

(** Modelled from the spec: [_cloneDeep(value)] of [@felte/common] over
    the heap: the same tree in containers of its own. *)
Definition _cloneDeep (h : heap) (v : hval) : hval * heap :=
  alloc_tree (tree_of h v) h.

(** Modelled from the spec: [deepSet(root, constant)] of
    [@felte/common] over the heap: a new structure of the shape of
    [root] with every leaf [constant]. *)
Definition deepSet (h : heap) (root : hval) (c : value) : hval * heap :=
  alloc_tree (deepSet (tree_of h root) c) h.

(** *** The engine *)

Section RefEngine.
Context {bridge : Bridge}.

(** The state [createHelpers] closes over, with the objects the stores
    and variables refer to. *)
Record engine : Type := mkEngine {
  objects : heap;
  data : hval;
  touched : hval;
  errors : hval;
  formNode : option (list element);
  initialValues : hval;
  config_validate : list validator
}.

Definition M (A : Type) : Type := engine -> result A * engine.

Definition ret {A} (a : A) : M A := fun st => (Ok a, st).
Definition throw {A} (e : exn) : M A := fun st => (Throw e, st).
Definition bind {A B} (c : M A) (k : A -> M B) : M B :=
  fun st =>
    match c st with
    | (Ok a, st') => k a st'
    | (Throw e, st') => (Throw e, st')
    end.

Definition read (s : store_id) (st : engine) : hval :=
  match s with
  | DataStore => data st
  | TouchedStore => touched st
  | ErrorsStore => errors st
  end.

Definition write (s : store_id) (v : hval) (st : engine) : engine :=
  match s with
  | DataStore =>
      mkEngine (objects st) v (touched st) (errors st) (formNode st)
        (initialValues st) (config_validate st)
  | TouchedStore =>
      mkEngine (objects st) (data st) v (errors st) (formNode st)
        (initialValues st) (config_validate st)
  | ErrorsStore =>
      mkEngine (objects st) (data st) (touched st) v (formNode st)
        (initialValues st) (config_validate st)
  end.

Definition with_objects (h : heap) (st : engine) : engine :=
  mkEngine h (data st) (touched st) (errors st) (formNode st)
    (initialValues st) (config_validate st).

Definition with_formNode (f : option (list element)) (st : engine)
  : engine :=
  mkEngine (objects st) (data st) (touched st) (errors st) f
    (initialValues st) (config_validate st).
End RefEngine.

Notation "x <~ c ;; k" := (bind c (fun x => k))
  (at level 61, c at next level, right associativity).
Notation "c ;;~ k" := (bind c (fun _ => k))
  (at level 61, right associativity).

Section RefHelpers.
Context {bridge : Bridge}.

Definition get_objects : M heap := fun st => (Ok (objects st), st).

(** An expression that builds its value in the heap. *)
Definition build_in_heap (f : heap -> hval * heap) : M hval :=
  fun st =>
    let (v, h) := f (objects st) in (Ok v, with_objects h st).

(** [get(store)]. *)
Definition store_get (s : store_id) : M hval :=
  fun st => (Ok (read s st), st).

(** [store.set(v)]. *)
Definition store_set (s : store_id) (v : hval) : M unit :=
  fun st => (Ok tt, write s v st).

(** [store.update(fn)]: when [fn] throws nothing is set. *)
Definition store_update (s : store_id)
    (fn : heap -> hval -> result (hval * heap)) : M unit :=
  fun st =>
    match fn (objects st) (read s st) with
    | Ok (v, h) => (Ok tt, write s v (with_objects h st))
    | Throw e => (Throw e, st)
    end.

Definition get_formNode : M (option (list element)) :=
  fun st => (Ok (formNode st), st).

Definition put_formNode (f : option (list element)) : M unit :=
  fun st => (Ok tt, with_formNode f st).

Definition get_initialValues : M hval :=
  fun st => (Ok (initialValues st), st).

Definition get_config_validate : M (list validator) :=
  fun st => (Ok (config_validate st), st).

(** [setTouched(fieldName, index?)]. *)
Definition setTouched (fieldName : string) (index : option number)
  : M unit :=
  let path :=
    match index with
    | None => fieldName
    | Some i => (fieldName ++ "[" ++ number_to_string i ++ "]")%string
    end in
  store_update TouchedStore (fun h t => _set h t path (HBool true)).

(** [setError(path, error)]. *)
Definition setError (path : string) (error : hval) : M unit :=
  store_update ErrorsStore (fun h e => _set h e path error).

(** [setField(path, value, touch)]; the control receives the value as
    it reads in the heap. *)
Definition setField (path : string) (v : hval) (touch : bool) : M unit :=
  store_update DataStore (fun h d => _set h d path v);;~
  (if touch then setTouched path None else ret tt);;~
  node <~ get_formNode;;
  match node with
  | None => ret tt
  | Some els =>
      h <~ get_objects;;
      put_formNode (Some (push_to_first path (tree_of h v) els))
  end.

(** [setFields(values)]. *)
Definition setFields (values : hval) : M unit :=
  c <~ build_in_heap (fun h => _cloneDeep h values);;
  store_set DataStore c;;~
  node <~ get_formNode;;
  match node with
  | None => ret tt
  | Some els =>
      h <~ get_objects;;
      put_formNode (Some (setForm els (tree_of h values)))
  end.

(** What is alive across the [await] of [validate]: [currentData], the
    object the validators were handed, and the validators at work. *)
Record suspended : Type := mkSuspended {
  currentData : hval;
  validators : list validator
}.

(** [validate] from its entry to the [await]. *)
Definition validate_begin : M suspended :=
  d <~ store_get DataStore;;
  store_update TouchedStore (fun h t => Ok (deepSet h t VTrue));;~
  fns <~ get_config_validate;;
  ret (mkSuspended d fns).

(** [validate] from the [await] to its return.  A validator in flight
    may read the object it holds at any moment until it settles; here
    all of them read it at the last moment, when they settle. *)
Definition validate_resume (s : suspended) : M value :=
  h <~ get_objects;;
  match executeValidation (tree_of h (currentData s)) (validators s) with
  | Throw e => throw e
  | Ok currentErrors =>
      e <~ build_in_heap (alloc_tree (js_or currentErrors empty_obj));;
      store_set ErrorsStore e;;~
      ret currentErrors
  end.

(** [validate()] when nothing else runs while it is suspended. *)
Definition validate : M value :=
  s <~ validate_begin;;
  validate_resume s.

(** [reset()]. *)
Definition reset : M unit :=
  iv <~ get_initialValues;;
  c <~ build_in_heap (fun h => _cloneDeep h iv);;
  setFields c;;~
  store_update TouchedStore (fun h t => Ok (deepSet h t VFalse)).

(** A call to one of the synchronous public helpers; an argument is a
    scalar or an object of the heap, which may be one a store or a
    suspended validation holds. *)
Inductive call : Type :=
| CallSetField (path : string) (v : hval) (touch : bool)
| CallSetFields (values : hval)
| CallSetTouched (fieldName : string) (index : option number)
| CallSetError (path : string) (error : hval)
| CallReset.

Definition run_call (c : call) : M unit :=
  match c with
  | CallSetField path v touch => setField path v touch
  | CallSetFields values => setFields values
  | CallSetTouched fieldName index => setTouched fieldName index
  | CallSetError path error => setError path error
  | CallReset => reset
  end.

Definition run_calls (cs : list call) (st : engine) : engine :=
  fold_left (fun st c => snd (run_call c st)) cs st.

(** [validate()] with the calls [cs] made between its [await] and the
    settling of the validators. *)
Definition validate_interleaved (cs : list call) (st : engine)
  : result value * engine :=
  match validate_begin st with
  | (Ok s, st1) => validate_resume s (run_calls cs st1)
  | (Throw e, st1) => (Throw e, st1)
  end.

(** The computation leaves every object of the heap as it is and only
    allocates. *)
Definition only_allocates {A} (m : M A) : Prop :=
  forall st, grows (objects st) (objects (snd (m st))).

(** An engine whose stores hold new objects with the given trees. *)
Definition load (d t e iv : value) (form : option (list element))
    (fns : list validator) : engine :=
  let (rd, h1) := alloc_tree d [] in
  let (rt, h2) := alloc_tree t h1 in
  let (re, h3) := alloc_tree e h2 in
  let (ri, h4) := alloc_tree iv h3 in
  mkEngine h4 rd rt re form ri fns.
End RefHelpers.
End Ref.

(** ** A concrete form, for running the helpers *)

Module Sample.
(** An input element: whether it is a form control, its name, the path
    derived from its name and fieldset, and the value it shows. *)
Record input : Type := mkInput {
  is_control : bool;
  input_name : string;
  input_path : string;
  shown : value
}.

Definition show (c : input) (v : value) : input :=
  mkInput (is_control c) (input_name c) (input_path c) v.

Definition sync (els : list input) (values : value) : list input :=
  map
    (fun c =>
       if is_control c && negb (is_empty (input_name c)) then
         match parse (input_path c) with
         | Some segs => show c (resolve segs values)
         | None => c
         end
       else c)
    els.

Definition dom : Bridge := {|
  element := input;
  isFormControl := is_control;
  name := input_name;
  getPath := input_path;
  setControlValue := show;
  setForm := sync
|}.

Definition email_input : input := mkInput true "email" "email" (VStr "").
Definition submit_button : input := mkInput false "" "" VUndef.
Definition city_input : input :=
  mkInput true "city" "addresses[0].city" (VStr "Quito").

Definition form : list input := [submit_button; email_input; city_input].

(** Validator A of the spec's example: the email is required. *)
Definition email_required : validator :=
  fun d =>
    match child (Key "email") d with
    | VUndef | VStr EmptyString => Ok (VObj [("email", VStr "required")])
    | _ => Ok VUndef
    end.

(** A validator whose remote check fails. *)
Definition remote_check : validator :=
  fun _ => Throw (ValidatorFailure (VStr "offline")).

Definition values0 : value :=
  VObj [("email", VStr ""); ("addresses", VArr [VObj [("city", VStr "Quito")]])].

Definition touched0 : value := VObj [("email", VTrue)].

Definition errors0 : value := VObj [("email", VStr "stale")].

(** An engine with the form attached and one validator. *)
Definition engine0 : engine (bridge := dom) :=
  @mkEngine dom values0 touched0 errors0 (Some form) values0
    [email_required] [].

(** The same engine with a failing validator registered as well. *)
Definition engine1 : engine (bridge := dom) :=
  @mkEngine dom values0 touched0 errors0 (Some form) values0
    [email_required; remote_check] [].

(** The first engine with its trees as objects of a heap. *)
Definition held0 : Ref.engine (bridge := dom) :=
  @Ref.load dom values0 touched0 errors0 values0 (Some form)
    [email_required].
End Sample.

(** * Properties *)

(** ** Structural operations *)

Lemma lookup_put_same (k : string) (v : value) (fs : list (string * value)) :
  lookup_field k (put_field k v fs) = Some v.
Proof.
  induction fs as [|[k' v'] tl IH]; simpl.
  - now rewrite String.eqb_refl.
  - destruct (String.eqb k k') eqn:E; simpl.
    + now rewrite String.eqb_refl.
    + now rewrite E.
Qed.

Lemma lookup_put_other (k k' : string) (v : value)
    (fs : list (string * value)) :
  String.eqb k' k = false ->
  lookup_field k' (put_field k v fs) = lookup_field k' fs.
Proof.
  intros Hne.
  induction fs as [|[k0 v0] tl IH]; simpl.
  - now rewrite Hne.
  - destruct (String.eqb k k0) eqn:E; simpl.
    + apply String.eqb_eq in E. subst k0. now rewrite Hne.
    + now rewrite IH.
Qed.

Lemma nth_put_same (i : nat) (v : value) (xs : list value) :
  nth i (put_item i v xs) VUndef = v.
Proof.
  revert xs.
  induction i as [|j IH]; intros [|x tl]; simpl; auto.
Qed.

Lemma nth_put_other (i j : nat) (v : value) (xs : list value) :
  i <> j -> nth j (put_item i v xs) VUndef = nth j xs VUndef.
Proof.
  revert j xs.
  induction i as [|i IH]; intros [|j] [|x tl] Hne; simpl; try congruence.
  - now destruct j.
  - rewrite (IH j []) by congruence. now destruct j.
  - apply IH. congruence.
Qed.

Lemma child_replace_same (s : segment) (v root : value) :
  child s (replace_child s v root) = v.
Proof.
  destruct s as [k|i]; simpl.
  - now rewrite lookup_put_same.
  - apply nth_put_same.
Qed.

Lemma resolve_set_at (segs : list segment) (v root : value) :
  resolve segs (set_at segs v root) = v.
Proof.
  revert root.
  induction segs as [|s rest IH]; intros root; simpl.
  - reflexivity.
  - rewrite child_replace_same. apply IH.
Qed.

Lemma resolve_undef (segs : list segment) : resolve segs VUndef = VUndef.
Proof.
  induction segs as [|s rest IH]; simpl; auto.
  now destruct s.
Qed.

Lemma child_replace_key_other (k k' : string) (v root : value) :
  String.eqb k k' = false ->
  child (Key k') (replace_child (Key k) v root) = child (Key k') root.
Proof.
  intros Hne. simpl.
  rewrite lookup_put_other by (rewrite String.eqb_sym; exact Hne).
  destruct root; reflexivity.
Qed.

Lemma child_replace_index_other (i j : nat) (v root : value) :
  Nat.eqb i j = false ->
  child (Index j) (replace_child (Index i) v root) = child (Index j) root.
Proof.
  intros Hne. apply Nat.eqb_neq in Hne. simpl.
  rewrite nth_put_other by exact Hne.
  destruct root; try reflexivity; now destruct j.
Qed.

Lemma set_at_frame (p q : list segment) (v root : value) :
  diverge p q = true -> resolve q (set_at p v root) = resolve q root.
Proof.
  revert q root.
  induction p as [|s p' IH]; intros q root Hd; [discriminate|].
  destruct s as [a|i]; destruct q as [|[b|j] q']; try discriminate;
    simpl in Hd.
  - destruct (String.eqb a b) eqn:E.
    + apply String.eqb_eq in E. subst b.
      cbn [set_at resolve]. rewrite child_replace_same. now apply IH.
    + cbn [set_at resolve]. now rewrite child_replace_key_other.
  - destruct (Nat.eqb i j) eqn:E.
    + apply Nat.eqb_eq in E. subst j.
      cbn [set_at resolve]. rewrite child_replace_same. now apply IH.
    + cbn [set_at resolve]. now rewrite child_replace_index_other.
Qed.

Lemma value_eqb_refl (v : value) : value_eqb v v = true.
Proof.
  induction v as [| b | n | s | id | items IH | fields IH]
    using value_tree_ind; simpl.
  - reflexivity.
  - now destruct b.
  - apply Z.eqb_refl.
  - apply String.eqb_refl.
  - apply Nat.eqb_refl.
  - induction IH as [|x tl Hx _ IHtl]; simpl; [reflexivity|].
    now rewrite Hx, IHtl.
  - induction IH as [|kv tl Hkv _ IHtl]; simpl; [reflexivity|].
    now rewrite String.eqb_refl, Hkv, IHtl.
Qed.

Lemma cloneDeep_id (v : value) : _cloneDeep v = v.
Proof.
  induction v as [| b | n | s | id | items IH | fields IH]
    using value_tree_ind; simpl; try reflexivity.
  - f_equal. induction IH as [|x tl Hx _ IHtl]; simpl; [reflexivity|].
    now rewrite Hx, IHtl.
  - f_equal. induction IH as [|[k x] tl Hkv _ IHtl]; simpl; [reflexivity|].
    simpl in Hkv. now rewrite Hkv, IHtl.
Qed.

Lemma cloneDeep_value_eqb (v : value) : value_eqb (_cloneDeep v) v = true.
Proof. rewrite cloneDeep_id. apply value_eqb_refl. Qed.

Lemma deepSet_all_leaves (t : value) (b : bool) :
  all_leaves (VBool b) (deepSet t (VBool b)) = true.
Proof.
  induction t as [| b' | n | s | id | items IH | fields IH]
    using value_tree_ind; simpl; try (now destruct b).
  - induction IH as [|x tl Hx _ IHtl]; simpl; [reflexivity|].
    now rewrite Hx, IHtl.
  - induction IH as [|kv tl Hkv _ IHtl]; simpl; [reflexivity|].
    now rewrite Hkv, IHtl.
Qed.

Lemma deepSet_same_shape (t : value) (b : bool) :
  same_shape t (deepSet t (VBool b)) = true.
Proof.
  induction t as [| b' | n | s | id | items IH | fields IH]
    using value_tree_ind; simpl; try reflexivity.
  - induction IH as [|x tl Hx _ IHtl]; simpl; [reflexivity|].
    now rewrite Hx, IHtl.
  - induction IH as [|kv tl Hkv _ IHtl]; simpl; [reflexivity|].
    now rewrite String.eqb_refl, Hkv, IHtl.
Qed.

Lemma parse_from_key_first (p acc : string) (segs : list segment) :
  parse_from (InKey acc) p = Some segs ->
  exists k rest, segs = Key k :: rest.
Proof.
  revert acc.
  induction p as [|c rest IH]; intros acc H; simpl in H.
  - destruct (is_empty acc); [discriminate|].
    injection H as <-. eauto.
  - destruct (Ascii.eqb c "."%char).
    { destruct (is_empty acc); [discriminate|].
      destruct (parse_from (InKey "") rest); [|discriminate].
      injection H as <-. eauto. }
    destruct (Ascii.eqb c "["%char).
    { destruct (is_empty acc); [discriminate|].
      destruct (parse_from (InIndex None) rest); [|discriminate].
      injection H as <-. eauto. }
    destruct (Ascii.eqb c "]"%char); [discriminate|].
    eapply IH; eauto.
Qed.

(** A path of the grammar starts with a named segment. *)
Lemma parse_key_first (p : string) (segs : list segment) :
  parse p = Some segs -> exists k rest, segs = Key k :: rest.
Proof. apply parse_from_key_first. Qed.

(** C8.  For every root, every path [p] of the grammar and every value
    [v], [_set root p v] succeeds with a new root, an object, from which
    [_get] at [p] reads exactly [v]; and reading that new root at any
    path that parts ways with [p] (at two different keys or two
    different positions) gives what the old root gave: only the target
    location was replaced. *)
Theorem set_get_roundtrip (root : value) (p : string) (v : value)
    (segs : list segment) :
  parse p = Some segs ->
  exists root',
    _set root p v = Ok root' /\
    (exists fields, root' = VObj fields) /\
    _get root' p = Ok v /\
    forall q qs,
      parse q = Some qs -> diverge segs qs = true ->
      _get root' q = _get root q.
Proof.
  intros Hp. exists (set_at segs v root).
  unfold _set, _get. rewrite Hp. split; [reflexivity|]. split; [|split].
  - destruct (parse_key_first p segs Hp) as (k & rest & ->).
    simpl. eauto.
  - now rewrite resolve_set_at.
  - intros q qs Hq Hd. rewrite Hq. f_equal. now apply set_at_frame.
Qed.

(** ** The validation executor *)

Lemma run_validators_all_resolved (vs : list validator) (d : value)
    (rs : list value) :
  run_validators vs d = Ok rs ->
  Forall (fun v => exists r, v d = Ok r) vs.
Proof.
  revert rs.
  induction vs as [|v rest IH]; intros rs H; simpl in H.
  - constructor.
  - destruct (v d) as [r|e] eqn:Ev; [|discriminate].
    destruct (run_validators rest d) as [rs'|e] eqn:Er; [|discriminate].
    constructor; eauto.
Qed.

Lemma run_validators_rejects (vs : list validator) (d : value)
    (v : validator) (e : exn) :
  In v vs -> v d = Throw e ->
  exists v' e',
    In v' vs /\ v' d = Throw e' /\ run_validators vs d = Throw e'.
Proof.
  induction vs as [|w rest IH]; intros Hin Hv; [contradiction|].
  simpl. destruct (w d) as [r|e0] eqn:Ew.
  - destruct Hin as [->|Hin]; [congruence|].
    destruct (IH Hin Hv) as (v' & e' & Hin' & Hv' & Hrun).
    exists v', e'. rewrite Hrun. auto with datatypes.
  - exists w, e0. auto with datatypes.
Qed.

Lemma executeValidation_all_resolved (d : value) (vs : list validator)
    (r : value) :
  executeValidation d vs = Ok r ->
  Forall (fun v => exists x, v d = Ok x) vs.
Proof.
  unfold executeValidation.
  destruct (run_validators vs d) as [rs|e] eqn:E; [|discriminate].
  intros _. eapply run_validators_all_resolved; eauto.
Qed.

Lemma executeValidation_rejects (d : value) (vs : list validator)
    (v : validator) (e : exn) :
  In v vs -> v d = Throw e ->
  exists v' e',
    In v' vs /\ v' d = Throw e' /\ executeValidation d vs = Throw e'.
Proof.
  intros Hin Hv.
  destruct (run_validators_rejects vs d v e Hin Hv)
    as (v' & e' & Hin' & Hv' & Hrun).
  exists v', e'. unfold executeValidation. rewrite Hrun. auto.
Qed.

(** ** The helpers *)

Section Properties.
Context {bridge : Bridge}.

Lemma published_to_app (s : store_id) (l l' : list event) :
  published_to s (l ++ l') = published_to s l ++ published_to s l'.
Proof. unfold published_to. apply flat_map_app. Qed.

Lemma validate_begin_eq (st : engine) :
  validate_begin st =
  (Ok (mkSuspended (data st)
         (executeValidation (data st) (config_validate st))),
   write TouchedStore (deepSet (touched st) VTrue) st).
Proof. reflexivity. Qed.

Lemma validate_resolved (st : engine) (r : value) :
  executeValidation (data st) (config_validate st) = Ok r ->
  validate st =
  (Ok r,
   write ErrorsStore (js_or r empty_obj)
     (write TouchedStore (deepSet (touched st) VTrue) st)).
Proof.
  intros H. unfold validate, bind. rewrite validate_begin_eq.
  unfold validate_resume, bind. cbn [awaited]. rewrite H. reflexivity.
Qed.

Lemma validate_rejected (st : engine) (e : exn) :
  executeValidation (data st) (config_validate st) = Throw e ->
  validate st =
  (Throw e, write TouchedStore (deepSet (touched st) VTrue) st).
Proof.
  intros H. unfold validate, bind. rewrite validate_begin_eq.
  unfold validate_resume. cbn [awaited]. rewrite H. reflexivity.
Qed.

Lemma appends_only_ret {A} (a : A) : appends_only (ret a).
Proof. intros st. exists []. now rewrite app_nil_r. Qed.

Lemma appends_only_throw {A} (e : exn) : appends_only (@throw _ A e).
Proof. intros st. exists []. now rewrite app_nil_r. Qed.

Lemma appends_only_bind {A B} (m : M A) (k : A -> M B) :
  appends_only m -> (forall a, appends_only (k a)) ->
  appends_only (bind m k).
Proof.
  intros Hm Hk st. unfold bind.
  destruct (Hm st) as [l Hl]. destruct (m st) as [[a|e] st1]; simpl in *.
  - destruct (Hk a st1) as [l' Hl']. exists (l ++ l').
    now rewrite Hl', Hl, app_assoc.
  - now exists l.
Qed.

Lemma appends_only_store_get (s : store_id) : appends_only (store_get s).
Proof. intros st. exists []. now rewrite app_nil_r. Qed.

Lemma appends_only_store_set (s : store_id) (v : value) :
  appends_only (store_set s v).
Proof. intros st. exists [Published s v]. now destruct s. Qed.

Lemma appends_only_store_update (s : store_id)
    (fn : value -> result value) :
  appends_only (store_update s fn).
Proof.
  apply appends_only_bind; [apply appends_only_store_get|].
  intros v. destruct (fn v).
  - apply appends_only_store_set.
  - apply appends_only_throw.
Qed.

Lemma appends_only_get_formNode : appends_only get_formNode.
Proof. intros st. exists []. now rewrite app_nil_r. Qed.

Lemma appends_only_put_formNode (f : option (list element)) :
  appends_only (put_formNode f).
Proof. intros st. exists []. simpl. now rewrite app_nil_r. Qed.

Lemma appends_only_get_initialValues : appends_only get_initialValues.
Proof. intros st. exists []. now rewrite app_nil_r. Qed.

Lemma appends_only_setFields (values : value) :
  appends_only (setFields values).
Proof.
  apply appends_only_bind; [apply appends_only_store_set|]. intros _.
  apply appends_only_bind; [apply appends_only_get_formNode|].
  intros [els|]; [apply appends_only_put_formNode|apply appends_only_ret].
Qed.

Lemma appends_only_run_call (c : call) : appends_only (run_call c).
Proof.
  destruct c as [path v touch | values | fieldName index | path error |];
    simpl.
  - apply appends_only_bind; [apply appends_only_store_update|]. intros _.
    apply appends_only_bind.
    { destruct touch;
        [apply appends_only_store_update|apply appends_only_ret]. }
    intros _.
    apply appends_only_bind; [apply appends_only_get_formNode|].
    intros [els|]; [apply appends_only_put_formNode|apply appends_only_ret].
  - apply appends_only_setFields.
  - apply appends_only_store_update.
  - apply appends_only_store_update.
  - apply appends_only_bind; [apply appends_only_get_initialValues|].
    intros iv.
    apply appends_only_bind; [apply appends_only_setFields|]. intros _.
    apply appends_only_store_update.
Qed.

(** Calls made while a validation is suspended leave the earlier
    writes where they are in the log. *)
Lemma run_calls_appends (cs : list call) (st : engine) :
  exists l, log (run_calls cs st) = log st ++ l.
Proof.
  revert st.
  induction cs as [|c rest IH]; intros st.
  - exists []. simpl. now rewrite app_nil_r.
  - change (run_calls (c :: rest) st)
      with (run_calls rest (snd (run_call c st))).
    destruct (appends_only_run_call c st) as [l Hl].
    destruct (IH (snd (run_call c st))) as [l' Hl'].
    exists (l ++ l'). now rewrite Hl', Hl, app_assoc.
Qed.

Lemma validate_interleaved_nil (st : engine) :
  validate_interleaved [] st = validate st.
Proof. reflexivity. Qed.

Lemma push_to_first_cons (path : string) (v : value) (c : element)
    (rest : list element) :
  push_to_first path v (c :: rest) =
  if is_control_at path c then setControlValue c v :: rest
  else c :: push_to_first path v rest.
Proof.
  unfold is_control_at. simpl.
  destruct (isFormControl c), (is_empty (name c)),
    (String.eqb path (getPath c)); reflexivity.
Qed.

Lemma push_to_first_none (path : string) (v : value)
    (els : list element) :
  (forall c, In c els -> is_control_at path c = false) ->
  push_to_first path v els = els.
Proof.
  induction els as [|c rest IH]; intros Hno; [reflexivity|].
  rewrite push_to_first_cons, (Hno c) by (now left).
  f_equal. apply IH. intros c' Hin. apply Hno. now right.
Qed.

Lemma push_to_first_hit (path : string) (v : value)
    (pre post : list element) (c : element) :
  (forall c', In c' pre -> is_control_at path c' = false) ->
  is_control_at path c = true ->
  push_to_first path v (pre ++ c :: post) =
  pre ++ setControlValue c v :: post.
Proof.
  intros Hpre Hc.
  induction pre as [|x pre IH]; cbn [app]; rewrite push_to_first_cons.
  - now rewrite Hc.
  - rewrite (Hpre x) by (now left). f_equal.
    apply IH. intros c' Hin. apply Hpre. now right.
Qed.

(** Either no element is a control at [path], or there is a first
    one. *)
Lemma first_control_at (path : string) (els : list element) :
  (forall c, In c els -> is_control_at path c = false) \/
  exists pre c post,
    els = pre ++ c :: post /\
    (forall c', In c' pre -> is_control_at path c' = false) /\
    is_control_at path c = true.
Proof.
  induction els as [|x rest IH].
  - left. intros c [].
  - destruct (is_control_at path x) eqn:Ex.
    + right. exists [], x, rest. repeat split; auto. intros c' [].
    + destruct IH as [Hno | (pre & c & post & -> & Hpre & Hc)].
      * left. intros c [<-|Hin]; auto.
      * right. exists (x :: pre), c, post. repeat split; auto.
        intros c' [<-|Hin]; auto.
Qed.

Lemma setField_eq (st : engine) (path : string) (v : value)
    (touch : bool) (segs : list segment) :
  parse path = Some segs ->
  setField path v touch st =
  (Ok tt,
   let st1 := write DataStore (set_at segs v (data st)) st in
   let st2 :=
     if touch
     then write TouchedStore (set_at segs VTrue (touched st1)) st1
     else st1 in
   match formNode st2 with
   | None => st2
   | Some els => with_formNode (Some (push_to_first path v els)) st2
   end).
Proof.
  intros Hp.
  unfold setField, setTouched, store_update, bind, store_get, store_set,
    _set, get_formNode, put_formNode, ret.
  rewrite Hp. cbn [read].
  destruct touch; cbn zeta;
    match goal with
    | |- context [formNode ?s] => destruct (formNode s)
    end; reflexivity.
Qed.

Lemma setFields_eq (st : engine) (values : value) :
  setFields values st =
  (Ok tt,
   let st1 := write DataStore (_cloneDeep values) st in
   match formNode st with
   | None => st1
   | Some els => with_formNode (Some (setForm els values)) st1
   end).
Proof.
  unfold setFields, bind, store_set, get_formNode, put_formNode, ret.
  cbn zeta. cbn [write formNode]. destruct (formNode st); reflexivity.
Qed.

Lemma reset_eq (st : engine) :
  reset st =
  (Ok tt,
   let iv := _cloneDeep (initialValues st) in
   let st1 := write DataStore (_cloneDeep iv) st in
   let st2 :=
     match formNode st with
     | None => st1
     | Some els => with_formNode (Some (setForm els iv)) st1
     end in
   write TouchedStore (deepSet (touched st) VFalse) st2).
Proof.
  unfold reset, bind, get_initialValues. rewrite setFields_eq.
  unfold store_update, bind, store_get, store_set. cbn zeta.
  destruct (formNode st); reflexivity.
Qed.

(** C1.  When the validators all resolve, [validate()] returns what
    the executor made of the snapshot read at entry ([r], undefined
    when there are no errors); the touched store then holds
    [deepSet touched true], of the same shape and with every leaf
    true; the errors store holds [r], or [{}] when [r] is empty; the
    data store is as it was; and the stores saw exactly two writes, in
    this order: the touched tree, then the error tree, once, with a
    result that every validator contributed to.  The order stands when
    other helpers are called during the suspension: their writes fall
    between the two. *)
Theorem validate_publishes (st : engine) (r : value) :
  executeValidation (data st) (config_validate st) = Ok r ->
  exists st',
    validate st = (Ok r, st') /\
    touched st' = deepSet (touched st) VTrue /\
    all_leaves VTrue (touched st') = true /\
    same_shape (touched st) (touched st') = true /\
    errors st' = js_or r empty_obj /\
    (r = VUndef -> errors st' = empty_obj) /\
    (forall fs, r = VObj fs -> errors st' = r) /\
    data st' = data st /\
    log st' =
      log st ++
      [Published TouchedStore (deepSet (touched st) VTrue);
       Published ErrorsStore (js_or r empty_obj)] /\
    Forall (fun v => exists x, v (data st) = Ok x) (config_validate st) /\
    forall cs, exists mid,
      log (snd (validate_interleaved cs st)) =
        log st ++
        [Published TouchedStore (deepSet (touched st) VTrue)] ++ mid ++
        [Published ErrorsStore (js_or r empty_obj)].
Proof.
  intros H. rewrite (validate_resolved st r H).
  eexists. split; [reflexivity|]. cbn [write touched errors data log].
  split; [reflexivity|].
  split; [apply deepSet_all_leaves|].
  split; [apply deepSet_same_shape|].
  split; [reflexivity|].
  split; [now intros ->|].
  split; [now intros fs ->|].
  split; [reflexivity|].
  split; [now rewrite <- app_assoc|].
  split; [eapply executeValidation_all_resolved; eauto|].
  intros cs. unfold validate_interleaved. rewrite validate_begin_eq.
  unfold validate_resume, bind, store_set, ret. cbn [awaited]. rewrite H.
  destruct (run_calls_appends cs
              (write TouchedStore (deepSet (touched st) VTrue) st))
    as [mid Hmid].
  exists mid. cbn [snd write log] in *. rewrite Hmid.
  now rewrite <- !app_assoc.
Qed.

(** The suspension on trees: whatever calls to the synchronous helpers
    run while [validate()] is suspended, the call ends as the validators
    ended on the tree the data store held at entry.  That the object
    holding this tree is left alone by the calls is
    [validate_snapshot_unaltered] below, over objects held by
    reference. *)
Theorem validate_snapshot_isolated (st : engine) (cs : list call) :
  exists s st1,
    validate_begin st = (Ok s, st1) /\
    currentData s = data st /\
    awaited s = executeValidation (data st) (config_validate st) /\
    validate_interleaved cs st = validate_resume s (run_calls cs st1) /\
    fst (validate_interleaved cs st) =
      executeValidation (data st) (config_validate st) /\
    forall r,
      executeValidation (data st) (config_validate st) = Ok r ->
      errors (snd (validate_interleaved cs st)) = js_or r empty_obj.
Proof.
  do 2 eexists. split; [apply validate_begin_eq|].
  unfold validate_interleaved. rewrite validate_begin_eq.
  unfold validate_resume, bind, store_set, throw, ret.
  cbn [currentData awaited].
  repeat split.
  - destruct (executeValidation (data st) (config_validate st));
      reflexivity.
  - intros r Hr. rewrite Hr. reflexivity.
Qed.

(** C3.  When a validator rejects or throws, [validate()] ends with
    the failure of a validator of the registry thrown to its caller,
    the errors store holds the value it held before the call, and no
    write to it was published. *)
Theorem validate_failure_keeps_errors (st : engine) (v : validator)
    (e : exn) :
  In v (config_validate st) -> v (data st) = Throw e ->
  exists v' e' st',
    In v' (config_validate st) /\ v' (data st) = Throw e' /\
    validate st = (Throw e', st') /\
    errors st' = errors st /\
    published_to ErrorsStore (log st') =
      published_to ErrorsStore (log st).
Proof.
  intros Hin Hv.
  destruct (executeValidation_rejects _ _ v e Hin Hv)
    as (v' & e' & Hin' & Hv' & Hex).
  exists v', e', (write TouchedStore (deepSet (touched st) VTrue) st).
  split; [exact Hin'|]. split; [exact Hv'|].
  split; [apply validate_rejected, Hex|].
  split; [reflexivity|].
  cbn [write log]. rewrite published_to_app. cbn. apply app_nil_r.
Qed.

(** C4.  [reset()] returns normally; the data store then holds a deep
    clone of [initialValues] (value-equal to it), an attached form is
    synced from a clone of [initialValues] and a missing one stays
    missing, and the touched store holds [deepSet touched false], of
    the same shape as before and with every leaf false. *)
Theorem reset_restores (st : engine) :
  exists st',
    reset st = (Ok tt, st') /\
    data st' = _cloneDeep (initialValues st) /\
    value_eqb (data st') (initialValues st) = true /\
    formNode st' =
      option_map (fun els => setForm els (_cloneDeep (initialValues st)))
        (formNode st) /\
    touched st' = deepSet (touched st) VFalse /\
    same_shape (touched st) (touched st') = true /\
    all_leaves VFalse (touched st') = true /\
    initialValues st' = initialValues st.
Proof.
  rewrite reset_eq. eexists. split; [reflexivity|]. cbn zeta.
  destruct (formNode st) as [els|] eqn:E;
    cbn [write with_formNode data touched formNode initialValues
         option_map];
    rewrite ?E;
    (repeat split;
     [ apply cloneDeep_id
     | rewrite !cloneDeep_id; apply value_eqb_refl
     | apply deepSet_same_shape
     | apply deepSet_all_leaves ]).
Qed.

(** C5.  [reset()] leaves the errors store as it was, stale entries
    included, and publishes no write to it. *)
Theorem reset_keeps_errors (st : engine) :
  errors (snd (reset st)) = errors st /\
  published_to ErrorsStore (log (snd (reset st))) =
    published_to ErrorsStore (log st).
Proof.
  rewrite reset_eq. cbn [snd]. cbn zeta.
  destruct (formNode st); cbn [write with_formNode errors log];
    (split; [reflexivity|]);
    rewrite !published_to_app; cbn; now rewrite !app_nil_r.
Qed.

(** C6.  [setFields(values)] returns normally and the data store then
    holds a deep clone of [values] (value-equal to it) and nothing of
    the tree it held before: whatever path reads undefined in [values]
    reads undefined in the data store, and [setFields({a: 1})] on
    [{a: 1, b: 2}] leaves exactly [{a: 1}].  An attached form is
    synced from [values]. *)
Theorem setFields_replaces (st : engine) (values : value) :
  exists st',
    setFields values st = (Ok tt, st') /\
    data st' = _cloneDeep values /\
    value_eqb (data st') values = true /\
    (forall path segs,
        parse path = Some segs -> resolve segs values = VUndef ->
        _get (data st') path = Ok VUndef) /\
    formNode st' =
      option_map (fun els => setForm els values) (formNode st) /\
    (data st = VObj [("a", VNum 1); ("b", VNum 2)] ->
     values = VObj [("a", VNum 1)] ->
     data st' = VObj [("a", VNum 1)] /\ _get (data st') "b" = Ok VUndef).
Proof.
  rewrite setFields_eq. eexists. split; [reflexivity|]. cbn zeta.
  destruct (formNode st) as [els|] eqn:E;
    cbn [write with_formNode data formNode option_map]; rewrite ?E;
    (split; [reflexivity|]);
    (split; [apply cloneDeep_value_eqb|]);
    (split;
     [ intros path segs Hp Hu; unfold _get; rewrite Hp, cloneDeep_id;
       now rewrite Hu
     | split; [reflexivity|]; intros _ ->; split; reflexivity ]).
Qed.

(** C7.  For a path of the grammar, [setField(path, value, touch)]
    returns normally; the data store then holds [_set data path value]
    and reads [value] at [path]; with [touch] the touched store holds
    [_set touched path true] and reads true at [path], without it the
    touched store is as it was; the errors store is as it was.  With
    no form attached there is still none.  With a form attached, the
    first element that is a named form control whose derived path is
    [path] receives the value and every other element is as it was;
    when no element is such a control all of them are as they were. *)
Theorem setField_updates (st : engine) (path : string) (v : value)
    (touch : bool) (segs : list segment) :
  parse path = Some segs ->
  exists st',
    setField path v touch st = (Ok tt, st') /\
    _set (data st) path v = Ok (data st') /\
    _get (data st') path = Ok v /\
    (touch = true ->
     _set (touched st) path VTrue = Ok (touched st') /\
     _get (touched st') path = Ok VTrue) /\
    (touch = false -> touched st' = touched st) /\
    errors st' = errors st /\
    (formNode st = None -> formNode st' = None) /\
    (forall els,
        formNode st = Some els ->
        formNode st' = Some (push_to_first path v els) /\
        ((forall c, In c els -> is_control_at path c = false) ->
         formNode st' = Some els) /\
        (forall pre c post,
            els = pre ++ c :: post ->
            (forall c', In c' pre -> is_control_at path c' = false) ->
            is_control_at path c = true ->
            formNode st' = Some (pre ++ setControlValue c v :: post))).
Proof.
  intros Hp. rewrite (setField_eq st path v touch segs Hp).
  eexists. split; [reflexivity|]. cbn zeta.
  unfold _set, _get. rewrite Hp.
  destruct touch; destruct (formNode st) as [els0|] eqn:E;
    cbn [write with_formNode data touched errors formNode];
    rewrite ?E; cbn [with_formNode data touched errors formNode];
    rewrite ?resolve_set_at;
    (split; [reflexivity|]); (split; [reflexivity|]);
    (split; [intros Ht; try discriminate; split; reflexivity|]);
    (split; [intros Ht; try discriminate; reflexivity|]);
    (split; [reflexivity|]);
    (split; [intros Hn; try discriminate; reflexivity|]);
    intros els Hels; try discriminate;
    injection Hels as <-;
    (split; [reflexivity|]);
    (split;
     [ intros Hno; now rewrite push_to_first_none
     | intros pre c post -> Hpre Hc; now rewrite push_to_first_hit ]).
Qed.

(** C9.  When a validator rejects or throws, [validate()] throws, yet
    the touched store has already been replaced by
    [deepSet touched true], every leaf true: that write is the only
    one the call published, and it is not undone. *)
Theorem validate_failure_still_touches (st : engine) (v : validator)
    (e : exn) :
  In v (config_validate st) -> v (data st) = Throw e ->
  exists e' st',
    validate st = (Throw e', st') /\
    touched st' = deepSet (touched st) VTrue /\
    all_leaves VTrue (touched st') = true /\
    same_shape (touched st) (touched st') = true /\
    errors st' = errors st /\
    log st' =
      log st ++ [Published TouchedStore (deepSet (touched st) VTrue)].
Proof.
  intros Hin Hv.
  destruct (executeValidation_rejects _ _ v e Hin Hv)
    as (v' & e' & _ & _ & Hex).
  exists e', (write TouchedStore (deepSet (touched st) VTrue) st).
  split; [apply validate_rejected, Hex|].
  cbn [write touched errors log]. repeat split.
  - apply deepSet_all_leaves.
  - apply deepSet_same_shape.
Qed.

(** C10.  [setFields(values)] publishes one write, to the data store;
    the touched store and the errors store hold what they held before
    and saw no write, so no field became touched. *)
Theorem setFields_frame (st : engine) (values : value) :
  touched (snd (setFields values st)) = touched st /\
  errors (snd (setFields values st)) = errors st /\
  log (snd (setFields values st)) =
    log st ++ [Published DataStore (_cloneDeep values)] /\
  published_to TouchedStore (log (snd (setFields values st))) =
    published_to TouchedStore (log st) /\
  published_to ErrorsStore (log (snd (setFields values st))) =
    published_to ErrorsStore (log st).
Proof.
  rewrite setFields_eq. cbn [snd]. cbn zeta.
  destruct (formNode st);
    cbn [write with_formNode touched errors log];
    rewrite !published_to_app; cbn; rewrite !app_nil_r;
    repeat split.
Qed.
End Properties.

(** ** Further properties of the helpers *)

(** *** Paths built by [setTouched] *)






Section MoreProperties.
Context {bridge : Bridge}.

(** *** What the public helpers leave alone *)

Lemma same_setup_refl (st : engine) : same_setup st st.
Proof. unfold same_setup. tauto. Qed.

Lemma same_setup_trans (a b c : engine) :
  same_setup a b -> same_setup b c -> same_setup a c.
Proof.
  unfold same_setup. intros (Hi & Hv & Hf) (Hi' & Hv' & Hf').
  rewrite Hi', Hv', Hf'. tauto.
Qed.

Lemma keeps_setup_ret {A} (a : A) : keeps_setup (ret a).
Proof. intros st. apply same_setup_refl. Qed.

Lemma keeps_setup_throw {A} (e : exn) : keeps_setup (@throw _ A e).
Proof. intros st. apply same_setup_refl. Qed.

Lemma keeps_setup_bind {A B} (m : M A) (k : A -> M B) :
  keeps_setup m -> (forall a, keeps_setup (k a)) -> keeps_setup (bind m k).
Proof.
  intros Hm Hk st. unfold bind. specialize (Hm st).
  destruct (m st) as [[a|e] st1]; simpl in *; [|exact Hm].
  eapply same_setup_trans; [exact Hm | apply Hk].
Qed.

Lemma keeps_setup_store_update (s : store_id)
    (fn : value -> result value) :
  keeps_setup (store_update s fn).
Proof.
  intros st. unfold store_update, bind, store_get, store_set, throw.
  destruct (fn (read s st)); [|apply same_setup_refl].
  destruct s; unfold same_setup; simpl; tauto.
Qed.

Lemma keeps_setup_store_set (s : store_id) (v : value) :
  keeps_setup (store_set s v).
Proof. intros st. destruct s; unfold same_setup; simpl; tauto. Qed.

Lemma keeps_setup_form_update (g : list element -> list element) :
  keeps_setup
    (node <- get_formNode;;
     match node with
     | None => ret tt
     | Some els => put_formNode (Some (g els))
     end).
Proof.
  intros st. unfold bind, get_formNode, put_formNode, ret.
  destruct (formNode st) as [els|] eqn:E; unfold same_setup; simpl;
    rewrite ?E; repeat split; congruence.
Qed.

Lemma keeps_setup_setFields (values : value) :
  keeps_setup (setFields values).
Proof.
  apply keeps_setup_bind; [apply keeps_setup_store_set|]. intros _.
  apply keeps_setup_form_update.
Qed.

Lemma keeps_setup_run_call (c : call) : keeps_setup (run_call c).
Proof.
  destruct c as [path v touch | values | fieldName index | path error |];
    simpl.
  - apply keeps_setup_bind; [apply keeps_setup_store_update|]. intros _.
    apply keeps_setup_bind.
    { destruct touch;
        [apply keeps_setup_store_update|apply keeps_setup_ret]. }
    intros _. apply keeps_setup_form_update.
  - apply keeps_setup_setFields.
  - apply keeps_setup_store_update.
  - apply keeps_setup_store_update.
  - apply keeps_setup_bind.
    { intros st. apply same_setup_refl. }
    intros iv.
    apply keeps_setup_bind; [apply keeps_setup_setFields|]. intros _.
    apply keeps_setup_store_update.
Qed.

Lemma run_calls_same_setup (cs : list call) (st : engine) :
  same_setup st (run_calls cs st).
Proof.
  revert st.
  induction cs as [|c rest IH]; intros st.
  - apply same_setup_refl.
  - change (run_calls (c :: rest) st)
      with (run_calls rest (snd (run_call c st))).
    eapply same_setup_trans; [apply keeps_setup_run_call | apply IH].
Qed.

(** X4.  No sequence of calls to [setField], [setFields], [setTouched],
    [setError] and [reset] changes [initialValues] or the registered
    validators, and none attaches or detaches the form. *)
Theorem public_calls_keep_setup (cs : list call) (st : engine) :
  initialValues (run_calls cs st) = initialValues st /\
  config_validate (run_calls cs st) = config_validate st /\
  (formNode (run_calls cs st) = None <-> formNode st = None).
Proof. exact (run_calls_same_setup cs st). Qed.

(** X5.  Whatever calls to the synchronous helpers came before,
    [reset()] returns normally, brings the data store back to a clone
    of the initial values and leaves every touched leaf false. *)
Theorem reset_after_calls (cs : list call) (st : engine) :
  fst (reset (run_calls cs st)) = Ok tt /\
  data (snd (reset (run_calls cs st))) = _cloneDeep (initialValues st) /\
  value_eqb (data (snd (reset (run_calls cs st)))) (initialValues st)
    = true /\
  all_leaves VFalse (touched (snd (reset (run_calls cs st)))) = true.
Proof.
  destruct (run_calls_same_setup cs st) as (Hi & _ & _).
  rewrite reset_eq. cbn [fst snd]. cbn zeta. rewrite Hi.
  split; [reflexivity|].
  destruct (formNode (run_calls cs st));
    cbn [write with_formNode data touched];
    rewrite !cloneDeep_id;
    (split; [reflexivity|]);
    (split; [apply value_eqb_refl | apply deepSet_all_leaves]).
Qed.

(** *** [setTouched] and [setError] *)

Lemma store_update_ok (s : store_id) (fn : value -> result value)
    (st : engine) (v' : value) :
  fn (read s st) = Ok v' -> store_update s fn st = (Ok tt, write s v' st).
Proof.
  intros H. unfold store_update, bind, store_get. now rewrite H.
Qed.

Lemma store_update_throw (s : store_id) (fn : value -> result value)
    (st : engine) (e : exn) :
  fn (read s st) = Throw e -> store_update s fn st = (Throw e, st).
Proof.
  intros H. unfold store_update, bind, store_get. now rewrite H.
Qed.


(** An index that does not print as decimal digits gives a path outside
    the grammar: [setTouched] throws and writes nothing. *)
Example setTouched_odd_index (st : engine) :
  setTouched "tags" (Some (Other "1e+21")) st =
    (Throw (MalformedPath "tags[1e+21]"), st) /\
  setTouched "tags" (Some (Other "-1")) st =
    (Throw (MalformedPath "tags[-1]"), st) /\
  setTouched "tags" (Some (Other "1.5")) st =
    (Throw (MalformedPath "tags[1.5]"), st).
Proof. repeat split. Qed.

(** X2.  [setError(path, error)] with a path of the grammar returns
    normally; the errors store then reads [error] at [path] and what it
    read before at the paths that part ways with [path]; it is the only
    store written, once.  The entry does not outlive a validation: after
    a following [validate()] whose validators resolve, the errors store
    holds their result alone. *)
Theorem setError_injects (st : engine) (path : string) (error : value)
    (segs : list segment) :
  parse path = Some segs ->
  exists st',
    setError path error st = (Ok tt, st') /\
    _get (errors st') path = Ok error /\
    (forall q qs,
        parse q = Some qs -> diverge segs qs = true ->
        _get (errors st') q = _get (errors st) q) /\
    data st' = data st /\ touched st' = touched st /\
    formNode st' = formNode st /\
    log st' = log st ++ [Published ErrorsStore (errors st')] /\
    forall r,
      executeValidation (data st) (config_validate st) = Ok r ->
      fst (validate st') = Ok r /\
      errors (snd (validate st')) = js_or r empty_obj.
Proof.
  intros Hp.
  exists (write ErrorsStore (set_at segs error (errors st)) st).
  split.
  { unfold setError. apply store_update_ok. unfold _set. now rewrite Hp. }
  cbn [write touched data errors formNode log].
  split; [unfold _get; now rewrite Hp, resolve_set_at|].
  split.
  { intros q qs Hq Hd. unfold _get. rewrite Hq. f_equal.
    now apply set_at_frame. }
  do 4 (split; [reflexivity|]).
  intros r Hr. rewrite (validate_resolved _ r) by exact Hr.
  split; reflexivity.
Qed.

(** X3.  With a path outside the grammar, [setField], [setTouched] and
    [setError] throw MalformedPath and leave the engine exactly as it
    was: [setField] stops at its first store update, so neither the
    touched store nor any control of the form is written. *)
Theorem malformed_path_changes_nothing (st : engine) (path : string)
    (v : value) (touch : bool) :
  parse path = None ->
  setField path v touch st = (Throw (MalformedPath path), st) /\
  setTouched path None st = (Throw (MalformedPath path), st) /\
  setError path v st = (Throw (MalformedPath path), st).
Proof.
  intros Hp.
  assert (Hset : forall root x,
             _set root path x = Throw (MalformedPath path)).
  { intros root x. unfold _set. now rewrite Hp. }
  split; [|split].
  - unfold setField, bind.
    now rewrite (store_update_throw _ _ _ _ (Hset (data st) v)).
  - unfold setTouched. apply store_update_throw, Hset.
  - unfold setError. apply store_update_throw, Hset.
Qed.

(** *** Overlapping validations *)

(** X6.  Of two overlapping calls of [validate()], the one whose
    validators settle last decides the errors store: when the first
    call is resumed after the second, the store ends with the result
    for the data the first call read at its entry, although the data
    store holds what the calls in between made of it.  Each call
    returns its own result and the two error trees are published in
    the order of settling. *)
Theorem validate_last_to_settle_wins (cs : list call) (st : engine)
    (r1 r2 : value) :
  let mid := run_calls cs (snd (validate_begin st)) in
  executeValidation (data st) (config_validate st) = Ok r1 ->
  executeValidation (data mid) (config_validate mid) = Ok r2 ->
  exists st',
    validate_overlapped cs st = (Ok r1, Ok r2, st') /\
    errors st' = js_or r1 empty_obj /\
    data st' = data mid /\
    log st' =
      log mid ++
      [Published TouchedStore (deepSet (touched mid) VTrue);
       Published ErrorsStore (js_or r2 empty_obj);
       Published ErrorsStore (js_or r1 empty_obj)].
Proof.
  intros mid H1 H2. unfold validate_overlapped.
  rewrite validate_begin_eq. fold mid.
  change (run_calls cs (write TouchedStore (deepSet (touched st) VTrue) st))
    with mid.
  rewrite validate_begin_eq.
  unfold validate_resume, bind, store_set, ret. cbn [awaited].
  rewrite H1, H2. eexists. split; [reflexivity|].
  cbn [write errors data log]. repeat split.
  now rewrite <- !app_assoc.
Qed.

(** *** The form *)

Lemma push_to_first_length (path : string) (v : value)
    (els : list element) :
  List.length (push_to_first path v els) = List.length els.
Proof.
  induction els as [|c rest IH]; [reflexivity|].
  rewrite push_to_first_cons.
  destruct (is_control_at path c); simpl; congruence.
Qed.

Lemma push_to_first_keeps (path : string) (v : value)
    (els : list element) (i : nat) (c : element) :
  nth_error els i = Some c -> is_control_at path c = false ->
  nth_error (push_to_first path v els) i = Some c.
Proof.
  revert i.
  induction els as [|x rest IH]; intros i Hn Hc; [now destruct i|].
  rewrite push_to_first_cons. destruct i as [|i]; simpl in Hn.
  - injection Hn as ->. now rewrite Hc.
  - destruct (is_control_at path x); simpl; auto.
Qed.

Lemma not_control_at (path : string) (c : element) :
  isFormControl c = false \/ name c = EmptyString \/ getPath c <> path ->
  is_control_at path c = false.
Proof.
  unfold is_control_at. intros [H | [H | H]].
  - now rewrite H.
  - rewrite H. simpl. now rewrite andb_false_r.
  - destruct (String.eqb path (getPath c)) eqn:E.
    + apply String.eqb_eq in E. congruence.
    + apply andb_false_r.
Qed.

(** X7.  With a form attached, [setField] on any path, valid or not,
    keeps the number and the order of the elements, and never writes
    an element that is not a form control, has no name, or has another
    path. *)
Theorem setField_spares_other_elements (st : engine) (path : string)
    (v : value) (touch : bool) (els : list element) :
  formNode st = Some els ->
  exists els',
    formNode (snd (setField path v touch st)) = Some els' /\
    List.length els' = List.length els /\
    forall i c,
      nth_error els i = Some c ->
      isFormControl c = false \/ name c = EmptyString \/
        getPath c <> path ->
      nth_error els' i = Some c.
Proof.
  intros Hf. destruct (parse path) as [segs|] eqn:Hp.
  - rewrite (setField_eq st path v touch segs Hp). cbn [snd]. cbn zeta.
    exists (push_to_first path v els).
    split.
    { destruct touch; cbn [write formNode]; rewrite Hf; reflexivity. }
    split; [apply push_to_first_length|].
    intros i c Hn Hc. apply push_to_first_keeps; [exact Hn|].
    now apply not_control_at.
  - unfold setField, bind.
    rewrite (store_update_throw DataStore _ st (MalformedPath path))
      by (cbn [read]; unfold _set; now rewrite Hp).
    exists els. cbn [snd]. auto.
Qed.

(** X8.  [setField] with a path of the grammar publishes the data
    write first and, with [touch], the touched write second; it
    publishes nothing else, and nothing to the errors store. *)
Theorem setField_publishes (st : engine) (path : string) (v : value)
    (touch : bool) (segs : list segment) :
  parse path = Some segs ->
  log (snd (setField path v touch st)) =
    log st ++
    Published DataStore (set_at segs v (data st)) ::
    (if touch
     then [Published TouchedStore (set_at segs VTrue (touched st))]
     else []) /\
  published_to ErrorsStore (log (snd (setField path v touch st))) =
    published_to ErrorsStore (log st).
Proof.
  intros Hp. rewrite (setField_eq st path v touch segs Hp).
  cbn [snd]. cbn zeta.
  destruct touch; destruct (formNode st) eqn:E;
    cbn [write with_formNode formNode touched log]; rewrite ?E;
    cbn [with_formNode log]; rewrite <- ?app_assoc;
    (split; [reflexivity|]);
    rewrite published_to_app; cbn; now rewrite app_nil_r.
Qed.

(** X11.  What the public helpers do to the three stores never
    depends on the form: with any form attached or none, a call ends
    the same way and leaves the same store contents and the same
    published writes. *)
Theorem stores_independent_of_form (c : call) (st : engine)
    (f : option (list element)) :
  fst (run_call c (with_formNode f st)) = fst (run_call c st) /\
  stores (snd (run_call c (with_formNode f st))) =
    stores (snd (run_call c st)).
Proof.
  destruct c as [path v touch | values | fieldName index | path error |];
    unfold run_call, reset, setField, setFields, setTouched, setError,
      store_update, bind, store_get, store_set, get_formNode,
      put_formNode, get_initialValues, ret, throw, stores;
    cbn [read with_formNode data touched errors formNode initialValues
         log write fst snd].
  - destruct (_set (data st) path v); [|split; reflexivity].
    destruct touch;
      cbn [read with_formNode data touched errors formNode log write];
      [destruct (_set (touched st) path VTrue)|];
      destruct f; destruct (formNode st); split; reflexivity.
  - destruct f; destruct (formNode st); split; reflexivity.
  - destruct (_set (touched st) _ VTrue); split; reflexivity.
  - destruct (_set (errors st) path error); split; reflexivity.
  - destruct f; destruct (formNode st); split; reflexivity.
Qed.

(** *** [createHelpers] and the private accessors *)

(** X9.  On the engine as [createHelpers] leaves it, [reset()] puts
    into the data store a clone of [config.initialValues], or the empty
    object when none was configured, whatever the data store held; no
    form is attached. *)
Theorem reset_fresh_engine (d t e config_initialValues : value)
    (fns : list validator) :
  let st := snd (reset (createHelpers d t e config_initialValues fns)) in
  data st =
    match config_initialValues with
    | VUndef => empty_obj
    | _ => config_initialValues
    end /\
  (config_initialValues = VUndef -> data st = empty_obj) /\
  formNode st = None /\
  errors st = e.
Proof.
  cbn zeta. rewrite reset_eq. cbn [snd]. cbn zeta.
  unfold createHelpers. cbn [formNode initialValues write data errors].
  rewrite !cloneDeep_id. repeat split. now intros ->.
Qed.

(** X10.  [_setInitialValues(values)] writes no store and publishes
    nothing; [_getInitialValues()] then returns [values], and the next
    [reset()] puts a clone of [values] into the data store. *)
Theorem setInitialValues_then_reset (st : engine) (values : value) :
  let st1 := snd (_setInitialValues values st) in
  stores st1 = stores st /\
  formNode st1 = formNode st /\
  fst (_getInitialValues st1) = Ok values /\
  data (snd (reset st1)) = _cloneDeep values /\
  value_eqb (data (snd (reset st1))) values = true.
Proof.
  cbn zeta. unfold _setInitialValues. cbn [snd].
  split; [reflexivity|]. split; [reflexivity|]. split; [reflexivity|].
  rewrite reset_eq. cbn [snd]. cbn zeta.
  cbn [with_initialValues initialValues formNode].
  destruct (formNode st); cbn [write with_formNode data];
    rewrite !cloneDeep_id; (split; [reflexivity|apply value_eqb_refl]).
Qed.

(** *** Repeating a call *)

Lemma deepSet_idempotent (t : value) (b : bool) :
  deepSet (deepSet t (VBool b)) (VBool b) = deepSet t (VBool b).
Proof.
  induction t as [| b' | n | s | id | items IH | fields IH]
    using value_tree_ind; simpl; try reflexivity.
  - f_equal. induction IH as [|x tl Hx _ IHtl]; simpl; [reflexivity|].
    now rewrite Hx, IHtl.
  - f_equal. induction IH as [|[k x] tl Hkv _ IHtl]; simpl; [reflexivity|].
    simpl in Hkv. now rewrite Hkv, IHtl.
Qed.

(** X12.  Calling [reset()] twice leaves the three stores holding what
    one call leaves. *)
Theorem reset_twice (st : engine) :
  data (snd (reset (snd (reset st)))) = data (snd (reset st)) /\
  touched (snd (reset (snd (reset st)))) = touched (snd (reset st)) /\
  errors (snd (reset (snd (reset st)))) = errors (snd (reset st)).
Proof.
  rewrite !reset_eq. cbn [snd]. cbn zeta.
  destruct (formNode st) eqn:E;
    cbn [write with_formNode data touched errors formNode initialValues];
    rewrite ?E;
    cbn [write with_formNode data touched errors formNode initialValues];
    unfold VFalse; rewrite deepSet_idempotent; repeat split.
Qed.

(** X13.  [validate()] changes nothing its validators read: called
    again right after a call whose validators resolved with [r], it
    returns [r] again and leaves the data, touched and errors stores as
    the first call left them. *)
Theorem validate_twice (st : engine) (r : value) :
  executeValidation (data st) (config_validate st) = Ok r ->
  fst (validate (snd (validate st))) = Ok r /\
  data (snd (validate (snd (validate st)))) = data (snd (validate st)) /\
  touched (snd (validate (snd (validate st)))) =
    touched (snd (validate st)) /\
  errors (snd (validate (snd (validate st)))) = errors (snd (validate st)).
Proof.
  intros H. rewrite (validate_resolved st r H). cbn [snd].
  rewrite (validate_resolved _ r) by exact H.
  cbn [fst snd write data touched errors].
  unfold VTrue. rewrite deepSet_idempotent. repeat split.
Qed.
End MoreProperties.

(** ** Objects held by reference *)

Lemma at_loc_older {A} (l : nat) (x : A) (xs : list A) :
  l < List.length xs -> Ref.at_loc l (x :: xs) = Ref.at_loc l xs.
Proof.
  intros Hl. unfold Ref.at_loc. cbn [List.length].
  destruct (Nat.ltb_spec l (S (List.length xs))); [|lia].
  destruct (Nat.ltb_spec l (List.length xs)); [|lia].
  replace (S (List.length xs) - 1 - l) with (S (List.length xs - 1 - l))
    by lia.
  reflexivity.
Qed.

Lemma at_loc_newest {A} (x : A) (xs : list A) :
  Ref.at_loc (List.length xs) (x :: xs) = Some x.
Proof.
  unfold Ref.at_loc. cbn [List.length].
  destruct (Nat.ltb_spec (List.length xs) (S (List.length xs))); [|lia].
  replace (S (List.length xs) - 1 - List.length xs) with 0 by lia.
  reflexivity.
Qed.

Lemma trees_length (h : Ref.heap) :
  List.length (Ref.trees h) = List.length h.
Proof. induction h as [|c older IH]; simpl; congruence. Qed.

Lemma grows_refl (h : Ref.heap) : Ref.grows h h.
Proof. now exists []. Qed.

Lemma grows_trans (a b c : Ref.heap) :
  Ref.grows a b -> Ref.grows b c -> Ref.grows a c.
Proof.
  intros [e1 ->] [e2 ->]. exists (e2 ++ e1). now rewrite app_assoc.
Qed.

Lemma grows_alloc (c : Ref.cell) (h : Ref.heap) :
  Ref.grows h (snd (Ref.alloc c h)).
Proof. now exists [c]. Qed.

Lemma valid_grows (h h' : Ref.heap) (v : Ref.hval) :
  Ref.grows h h' -> Ref.valid h v = true -> Ref.valid h' v = true.
Proof.
  intros [ext ->]. destruct v; simpl; auto.
  rewrite !Nat.ltb_lt, length_app. lia.
Qed.

(** Allocation changes the tree of nothing that was held before. *)
Lemma tree_of_grows (h h' : Ref.heap) (v : Ref.hval) :
  Ref.grows h h' -> Ref.valid h v = true ->
  Ref.tree_of h' v = Ref.tree_of h v.
Proof.
  intros [ext ->] Hv. destruct v as [| | | | |l]; try reflexivity.
  simpl in Hv. apply Nat.ltb_lt in Hv.
  unfold Ref.tree_of, Ref.tree_in.
  induction ext as [|c ext IH]; [reflexivity|].
  cbn [app Ref.trees]. rewrite at_loc_older; [exact IH|].
  rewrite trees_length, length_app. lia.
Qed.

Section AllocFacts.
Context {A : Type} (f : A -> Ref.heap -> Ref.hval * Ref.heap).
Context (g : A -> value).

Lemma alloc_list_allocates (l : list A) :
  Forall (Ref.allocates f g) l ->
  forall h,
    Ref.grows h (snd (Ref.alloc_list f l h)) /\
    Forall (fun r => Ref.valid (snd (Ref.alloc_list f l h)) r = true)
      (fst (Ref.alloc_list f l h)) /\
    map (Ref.tree_of (snd (Ref.alloc_list f l h)))
      (fst (Ref.alloc_list f l h)) = map g l.
Proof.
  induction 1 as [|x tl Hx _ IH]; intros h; cbn [Ref.alloc_list].
  - repeat split; [apply grows_refl | constructor].
  - destruct (Hx h) as (Hg1 & Hv1 & Ht1).
    destruct (f x h) as [r h1]. cbn [fst snd] in *.
    destruct (IH h1) as (Hg2 & Hv2 & Ht2).
    destruct (Ref.alloc_list f tl h1) as [rs h2]. cbn [fst snd map] in *.
    split; [eapply grows_trans; eauto|]. split.
    + constructor; [eapply valid_grows; eauto | exact Hv2].
    + rewrite (tree_of_grows h1 h2 r Hg2 Hv1), Ht1, Ht2. reflexivity.
Qed.
End AllocFacts.

Lemma tree_of_newest (c : Ref.cell) (h : Ref.heap) :
  Ref.tree_of (c :: h) (Ref.HRef (List.length h)) =
  Ref.build (Ref.trees h) c.
Proof.
  unfold Ref.tree_of, Ref.tree_in. cbn [Ref.trees].
  rewrite <- (trees_length h). now rewrite at_loc_newest.
Qed.

Lemma valid_newest (c : Ref.cell) (h : Ref.heap) :
  Ref.valid (c :: h) (Ref.HRef (List.length h)) = true.
Proof. simpl. apply Nat.ltb_lt. lia. Qed.

Lemma combine_fields (fields : list (string * value)) (ts : list value)
    (rs : list Ref.hval) :
  map (Ref.tree_in ts) rs = map snd fields ->
  map (fun kv => (fst kv, Ref.tree_in ts (snd kv)))
    (combine (map fst fields) rs) = fields.
Proof.
  revert rs.
  induction fields as [|[k x] tl IH]; intros [|r rs] H; simpl in *;
    try discriminate; [reflexivity|].
  injection H as Hr Hrs. now rewrite Hr, IH.
Qed.

Lemma alloc_tree_allocates (t : value) :
  Ref.allocates Ref.alloc_tree id t.
Proof.
  induction t as [| b | n | s | id0 | items IH | fields IH]
    using value_tree_ind; intros h; cbn [Ref.alloc_tree fst snd];
    try (repeat split; apply grows_refl).
  - destruct (alloc_list_allocates Ref.alloc_tree id items IH h)
      as (Hg & _ & Ht).
    destruct (Ref.alloc_list Ref.alloc_tree items h) as [rs h1].
    cbn [fst snd Ref.alloc] in *.
    split; [eapply grows_trans; [exact Hg | now exists [Ref.CArr rs]]|].
    split; [apply valid_newest|].
    rewrite tree_of_newest. cbn [Ref.build]. unfold id.
    f_equal. rewrite map_id in Ht. exact Ht.
  - destruct (alloc_list_allocates
                (fun kv => Ref.alloc_tree (snd kv)) snd fields IH h)
      as (Hg & _ & Ht).
    destruct (Ref.alloc_list (fun kv => Ref.alloc_tree (snd kv)) fields h)
      as [rs h1].
    cbn [fst snd Ref.alloc] in *.
    split; [eapply grows_trans; [exact Hg | now eexists [_]]|].
    split; [apply valid_newest|].
    rewrite tree_of_newest. cbn [Ref.build]. unfold id.
    f_equal. now apply combine_fields.
Qed.

Lemma set_at_grows (segs : list segment) (v root : Ref.hval)
    (h : Ref.heap) :
  Ref.grows h (snd (Ref.set_at segs v root h)).
Proof.
  revert root.
  induction segs as [|s rest IH]; intros root; cbn [Ref.set_at].
  - apply grows_refl.
  - specialize (IH (Ref.child h s root)).
    destruct (Ref.set_at rest v (Ref.child h s root) h) as [c h1].
    cbn [snd Ref.alloc] in *.
    eapply grows_trans; [exact IH | now eexists [_]].
Qed.

(** *** The heap and the trees agree *)

Lemma grows_length (h h' : Ref.heap) :
  Ref.grows h h' -> List.length h <= List.length h'.
Proof. intros [ext ->]. rewrite length_app. lia. Qed.

Lemma cell_valid_grows (h h' : Ref.heap) (c : Ref.cell) :
  Ref.grows h h' -> Ref.cell_valid h c = true -> Ref.cell_valid h' c = true.
Proof.
  intros Hg. destruct c as [items|fields]; cbn [Ref.cell_valid];
    rewrite !forallb_forall; intros H x Hx;
    (eapply valid_grows; [exact Hg | now apply H]).
Qed.

Lemma closed_cell (h : Ref.heap) (l : nat) (c : Ref.cell) :
  Ref.closed h = true -> Ref.at_loc l h = Some c ->
  Ref.cell_valid h c = true.
Proof.
  induction h as [|c0 older IH]; intros Hc Hl.
  - unfold Ref.at_loc in Hl. simpl in Hl. discriminate.
  - cbn [Ref.closed] in Hc. apply andb_prop in Hc as [Hc0 Hold].
    destruct (Nat.eq_dec l (List.length older)) as [->|Hne].
    + rewrite at_loc_newest in Hl. injection Hl as <-.
      eapply cell_valid_grows; [|exact Hc0]. now exists [c0].
    + assert (Hlt : l < List.length older).
      { unfold Ref.at_loc in Hl. cbn [List.length] in Hl.
        destruct (Nat.ltb_spec l (S (List.length older)));
          [lia|discriminate]. }
      rewrite at_loc_older in Hl by exact Hlt.
      eapply cell_valid_grows; [|apply IH; assumption]. now exists [c0].
Qed.

Lemma tree_in_older (t : value) (h : Ref.heap) (v : Ref.hval) :
  Ref.valid h v = true ->
  Ref.tree_in (t :: Ref.trees h) v = Ref.tree_in (Ref.trees h) v.
Proof.
  destruct v as [| | | | |l]; try reflexivity. simpl. intros Hl.
  apply Nat.ltb_lt in Hl. rewrite at_loc_older; [reflexivity|].
  now rewrite trees_length.
Qed.

Lemma build_older (t : value) (h : Ref.heap) (c : Ref.cell) :
  Ref.cell_valid h c = true ->
  Ref.build (t :: Ref.trees h) c = Ref.build (Ref.trees h) c.
Proof.
  destruct c as [items|fields]; cbn [Ref.cell_valid Ref.build];
    rewrite forallb_forall; intros H; f_equal; apply map_ext_in;
    intros x Hx; rewrite tree_in_older; auto.
Qed.

(** The tree of a container is built from what its slots hold. *)
Lemma tree_of_cell (h : Ref.heap) (l : nat) (c : Ref.cell) :
  Ref.closed h = true -> Ref.at_loc l h = Some c ->
  Ref.tree_of h (Ref.HRef l) = Ref.build (Ref.trees h) c.
Proof.
  induction h as [|c0 older IH]; intros Hc Hl.
  - unfold Ref.at_loc in Hl. simpl in Hl. discriminate.
  - pose proof (closed_cell _ _ _ Hc Hl) as Hcv.
    cbn [Ref.closed] in Hc. apply andb_prop in Hc as [Hc0 Hold].
    destruct (Nat.eq_dec l (List.length older)) as [->|Hne].
    + rewrite at_loc_newest in Hl. injection Hl as <-.
      rewrite tree_of_newest. cbn [Ref.trees].
      now rewrite build_older.
    + assert (Hlt : l < List.length older).
      { unfold Ref.at_loc in Hl. cbn [List.length] in Hl.
        destruct (Nat.ltb_spec l (S (List.length older)));
          [lia|discriminate]. }
      rewrite at_loc_older in Hl by exact Hlt.
      rewrite (tree_of_grows older (c0 :: older));
        [|now exists [c0] | simpl; now apply Nat.ltb_lt].
      rewrite (IH Hold Hl). cbn [Ref.trees].
      rewrite build_older; [reflexivity|].
      eapply closed_cell; eauto.
Qed.

Lemma valid_at_loc (h : Ref.heap) (l : nat) :
  l < List.length h -> exists c, Ref.at_loc l h = Some c.
Proof.
  intros Hl. unfold Ref.at_loc.
  destruct (Nat.ltb_spec l (List.length h)); [|lia].
  destruct (nth_error h (List.length h - 1 - l)) eqn:E; [eauto|].
  apply nth_error_None in E. lia.
Qed.

Lemma lookup_slot_tree (f : Ref.hval -> value) (k : string)
    (fs : list (string * Ref.hval)) :
  lookup_field k (map (fun kv => (fst kv, f (snd kv))) fs) =
  option_map f (Ref.lookup_slot k fs).
Proof.
  induction fs as [|[k' x] tl IH]; simpl; [reflexivity|].
  now destruct (String.eqb k k').
Qed.

Lemma put_slot_tree (f : Ref.hval -> value) (k : string) (x : Ref.hval)
    (fs : list (string * Ref.hval)) :
  map (fun kv => (fst kv, f (snd kv))) (Ref.put_slot k x fs) =
  put_field k (f x) (map (fun kv => (fst kv, f (snd kv))) fs).
Proof.
  induction fs as [|[k' y] tl IH]; simpl; [reflexivity|].
  destruct (String.eqb k k'); simpl; [reflexivity|]. now rewrite IH.
Qed.

Lemma put_nth_tree (f : Ref.hval -> value) (i : nat) (x : Ref.hval)
    (xs : list Ref.hval) :
  f Ref.HUndef = VUndef ->
  map f (Ref.put_nth Ref.HUndef i x xs) = put_item i (f x) (map f xs).
Proof.
  intros Hf. revert xs.
  induction i as [|j IH]; intros [|y tl]; simpl; try reflexivity.
  - rewrite Hf. f_equal. apply (IH []).
  - f_equal. apply IH.
Qed.

(** Reading a slot in the heap is reading the child in the tree. *)
Lemma child_tree (h : Ref.heap) (s : segment) (root : Ref.hval) :
  Ref.closed h = true -> Ref.valid h root = true ->
  Ref.valid h (Ref.child h s root) = true /\
  Ref.tree_of h (Ref.child h s root) = child s (Ref.tree_of h root).
Proof.
  intros Hc Hv. unfold Ref.child.
  destruct root as [| | | | |l];
    try (destruct s; split; reflexivity).
  simpl in Hv. apply Nat.ltb_lt in Hv.
  destruct (valid_at_loc h l Hv) as [c Hl].
  cbn [Ref.cell_of]. rewrite Hl, (tree_of_cell h l c Hc Hl).
  pose proof (closed_cell h l c Hc Hl) as Hcv.
  destruct s as [k|i]; destruct c as [items|fields];
    cbn [Ref.build child Ref.cell_valid] in *;
    try (split; reflexivity).
  - rewrite lookup_slot_tree.
    destruct (Ref.lookup_slot k fields) as [x|] eqn:E;
      [|split; reflexivity].
    split; [|reflexivity].
    rewrite forallb_forall in Hcv.
    assert (Hin : In (k, x) fields \/ exists k', In (k', x) fields).
    { clear -E. induction fields as [|[k' y] tl IH]; [discriminate|].
      simpl in E. destruct (String.eqb k k') eqn:Ek.
      - injection E as ->. right. exists k'. now left.
      - destruct (IH E) as [H|[k0 H]]; [left|right; exists k0];
          now right. }
    destruct Hin as [Hin|[k' Hin]]; apply (Hcv _ Hin).
  - rewrite forallb_forall in Hcv. split.
    + destruct (Nat.lt_ge_cases i (List.length items)) as [Hi|Hi].
      * apply Hcv, nth_In, Hi.
      * now rewrite nth_overflow.
    + change VUndef with (Ref.tree_in (Ref.trees h) Ref.HUndef).
      unfold Ref.tree_of. now rewrite map_nth.
Qed.

Lemma closed_alloc (c : Ref.cell) (h : Ref.heap) :
  Ref.closed h = true -> Ref.cell_valid h c = true ->
  Ref.closed (snd (Ref.alloc c h)) = true.
Proof. intros Hc Hv. cbn. now rewrite Hv, Hc. Qed.

Lemma put_slot_valid (h : Ref.heap) (k : string) (x : Ref.hval)
    (fs : list (string * Ref.hval)) :
  Ref.valid h x = true ->
  forallb (fun kv => Ref.valid h (snd kv)) fs = true ->
  forallb (fun kv => Ref.valid h (snd kv)) (Ref.put_slot k x fs) = true.
Proof.
  intros Hx. induction fs as [|[k' y] tl IH]; simpl.
  - now rewrite Hx.
  - intros H. apply andb_prop in H as [Hy Htl].
    destruct (String.eqb k k'); simpl; rewrite ?Hx, ?Hy, ?Htl; auto.
Qed.

Lemma put_nth_valid (h : Ref.heap) (i : nat) (x : Ref.hval)
    (xs : list Ref.hval) :
  Ref.valid h x = true ->
  forallb (Ref.valid h) xs = true ->
  forallb (Ref.valid h) (Ref.put_nth Ref.HUndef i x xs) = true.
Proof.
  intros Hx. revert xs.
  induction i as [|j IH]; intros [|y tl] H; simpl in *.
  - now rewrite Hx.
  - apply andb_prop in H as [_ Htl]. now rewrite Hx, Htl.
  - apply (IH [] eq_refl).
  - apply andb_prop in H as [Hy Htl]. rewrite Hy. now apply IH.
Qed.

Lemma replace_slot_valid (h : Ref.heap) (s : segment) (x : Ref.hval)
    (old : option Ref.cell) :
  Ref.valid h x = true ->
  (forall c, old = Some c -> Ref.cell_valid h c = true) ->
  Ref.cell_valid h (Ref.replace_slot s x old) = true.
Proof.
  intros Hx Hold.
  destruct s as [k|i]; cbn [Ref.replace_slot Ref.cell_valid].
  - apply put_slot_valid; [exact Hx|].
    destruct old as [[items|fields]|]; try reflexivity.
    exact (Hold _ eq_refl).
  - apply put_nth_valid; [exact Hx|].
    destruct old as [[items|fields]|]; try reflexivity.
    exact (Hold _ eq_refl).
Qed.

(** The new container reads as the old tree with the child replaced. *)
Lemma replace_slot_tree (h h1 : Ref.heap) (s : segment) (x root : Ref.hval) :
  Ref.closed h = true -> Ref.valid h root = true -> Ref.grows h h1 ->
  Ref.build (Ref.trees h1) (Ref.replace_slot s x (Ref.cell_of h root)) =
  replace_child s (Ref.tree_of h1 x) (Ref.tree_of h root).
Proof.
  intros Hc Hv Hg.
  assert (Hsame : forall c,
             Ref.cell_valid h c = true ->
             Ref.build (Ref.trees h1) c = Ref.build (Ref.trees h) c).
  { intros c Hcv. destruct c as [items|fields];
      cbn [Ref.cell_valid Ref.build] in *;
      rewrite forallb_forall in Hcv; f_equal; apply map_ext_in;
      intros y Hy.
    - apply (tree_of_grows h h1 _ Hg). now apply Hcv.
    - f_equal. apply (tree_of_grows h h1 _ Hg). now apply Hcv. }
  destruct root as [| | | | |l];
    try (destruct s;
         cbn [Ref.cell_of Ref.replace_slot Ref.build replace_child];
         rewrite ?put_nth_tree by reflexivity; reflexivity).
  simpl in Hv. apply Nat.ltb_lt in Hv.
  destruct (valid_at_loc h l Hv) as [c Hl].
  cbn [Ref.cell_of]. rewrite Hl, (tree_of_cell h l c Hc Hl).
  pose proof (Hsame c (closed_cell h l c Hc Hl)) as Hb.
  destruct s as [k|i]; destruct c as [items|fields];
    cbn [Ref.replace_slot Ref.build replace_child] in *;
    try reflexivity.
  - rewrite put_slot_tree. injection Hb as ->. reflexivity.
  - rewrite put_nth_tree by reflexivity. injection Hb as ->. reflexivity.
  - now rewrite put_nth_tree by reflexivity.
Qed.

(** [Ref.set_at] is [set_at] on the trees, and keeps the heap closed. *)
Lemma set_at_refines (segs : list segment) (v root : Ref.hval)
    (h : Ref.heap) :
  Ref.closed h = true -> Ref.valid h v = true ->
  Ref.valid h root = true ->
  Ref.closed (snd (Ref.set_at segs v root h)) = true /\
  Ref.valid (snd (Ref.set_at segs v root h))
    (fst (Ref.set_at segs v root h)) = true /\
  Ref.tree_of (snd (Ref.set_at segs v root h))
    (fst (Ref.set_at segs v root h)) =
  set_at segs (Ref.tree_of h v) (Ref.tree_of h root).
Proof.
  intros Hc Hv. revert root.
  induction segs as [|s rest IH]; intros root Hr;
    cbn [Ref.set_at set_at].
  - auto.
  - destruct (child_tree h s root Hc Hr) as (Hcv & Hct).
    destruct (IH _ Hcv) as (Hc1 & Hv1 & Ht1).
    pose proof (set_at_grows rest v (Ref.child h s root) h) as Hg.
    destruct (Ref.set_at rest v (Ref.child h s root) h) as [c h1].
    cbn [fst snd Ref.alloc] in *.
    assert (Hnew : Ref.cell_valid h1
                     (Ref.replace_slot s c (Ref.cell_of h root)) = true).
    { apply replace_slot_valid; [exact Hv1|].
      intros c0 Hc0. destruct root as [| | | | |l]; try discriminate.
      eapply cell_valid_grows; [exact Hg|].
      eapply closed_cell; eauto. }
    split; [cbn; now rewrite Hnew, Hc1|].
    split; [apply valid_newest|].
    rewrite tree_of_newest, (replace_slot_tree h h1) by assumption.
    now rewrite Ht1, Hct.
Qed.

Section RefProperties.
Context {bridge : Bridge}.

Lemma only_allocates_ret {A} (a : A) : Ref.only_allocates (Ref.ret a).
Proof. intros st. apply grows_refl. Qed.

Lemma only_allocates_throw {A} (e : exn) :
  Ref.only_allocates (@Ref.throw _ A e).
Proof. intros st. apply grows_refl. Qed.

Lemma only_allocates_bind {A B} (m : Ref.M A) (k : A -> Ref.M B) :
  Ref.only_allocates m -> (forall a, Ref.only_allocates (k a)) ->
  Ref.only_allocates (Ref.bind m k).
Proof.
  intros Hm Hk st. unfold Ref.bind. specialize (Hm st).
  destruct (m st) as [[a|e] st1]; cbn [snd] in *; [|exact Hm].
  eapply grows_trans; [exact Hm | apply Hk].
Qed.

Lemma only_allocates_build (f : Ref.heap -> Ref.hval * Ref.heap) :
  (forall h, Ref.grows h (snd (f h))) ->
  Ref.only_allocates (Ref.build_in_heap f).
Proof.
  intros Hf st. unfold Ref.build_in_heap. specialize (Hf (Ref.objects st)).
  destruct (f (Ref.objects st)) as [v h]. exact Hf.
Qed.

Lemma only_allocates_store_set (s : store_id) (v : Ref.hval) :
  Ref.only_allocates (Ref.store_set s v).
Proof. intros st. destruct s; apply grows_refl. Qed.

Lemma only_allocates_store_update (s : store_id)
    (fn : Ref.heap -> Ref.hval -> result (Ref.hval * Ref.heap)) :
  (forall h v r h', fn h v = Ok (r, h') -> Ref.grows h h') ->
  Ref.only_allocates (Ref.store_update s fn).
Proof.
  intros Hfn st. unfold Ref.store_update.
  destruct (fn (Ref.objects st) (Ref.read s st)) as [[r h']|e] eqn:E.
  - apply Hfn in E. destruct s; exact E.
  - apply grows_refl.
Qed.

Lemma _set_grows (path : string) (x : Ref.hval) (h : Ref.heap)
    (v r : Ref.hval) (h' : Ref.heap) :
  Ref._set h v path x = Ok (r, h') -> Ref.grows h h'.
Proof.
  unfold Ref._set. destruct (parse path) as [segs|]; [|discriminate].
  intros [= H]. pose proof (set_at_grows segs x v h) as Hg.
  now rewrite H in Hg.
Qed.

Lemma cloneDeep_grows (v : Ref.hval) (h : Ref.heap) :
  Ref.grows h (snd (Ref._cloneDeep h v)).
Proof. unfold Ref._cloneDeep. apply alloc_tree_allocates. Qed.

Lemma deepSet_grows (c : value) (h : Ref.heap) (v r : Ref.hval)
    (h' : Ref.heap) :
  Ok (Ref.deepSet h v c) = Ok (r, h') -> Ref.grows h h'.
Proof.
  intros [= H]. unfold Ref.deepSet in H.
  pose proof (proj1 (alloc_tree_allocates (deepSet (Ref.tree_of h v) c) h))
    as Hg.
  now rewrite H in Hg.
Qed.

Lemma only_allocates_form (g : Ref.heap -> list element -> list element) :
  Ref.only_allocates
    (Ref.bind Ref.get_formNode
       (fun node =>
          match node with
          | None => Ref.ret tt
          | Some els =>
              Ref.bind Ref.get_objects
                (fun h => Ref.put_formNode (Some (g h els)))
          end)).
Proof. intros st. cbn. destruct (Ref.formNode st); apply grows_refl. Qed.

Lemma only_allocates_setFields (values : Ref.hval) :
  Ref.only_allocates (Ref.setFields values).
Proof.
  apply only_allocates_bind.
  { apply only_allocates_build. intros h. apply cloneDeep_grows. }
  intros c. apply only_allocates_bind; [apply only_allocates_store_set|].
  intros _.
  apply (only_allocates_form
           (fun h els => setForm els (Ref.tree_of h values))).
Qed.

Lemma only_allocates_run_call (c : Ref.call) :
  Ref.only_allocates (Ref.run_call c).
Proof.
  destruct c as [path v touch | values | fieldName index | path error |];
    cbn [Ref.run_call].
  - apply only_allocates_bind.
    { apply only_allocates_store_update. intros h d r h'.
      apply _set_grows. }
    intros _. apply only_allocates_bind.
    { destruct touch; [|apply only_allocates_ret].
      apply only_allocates_store_update. intros h d r h'.
      apply _set_grows. }
    intros _.
    apply (only_allocates_form
             (fun h els => push_to_first path (Ref.tree_of h v) els)).
  - apply only_allocates_setFields.
  - apply only_allocates_store_update. intros h d r h'. apply _set_grows.
  - apply only_allocates_store_update. intros h d r h'. apply _set_grows.
  - apply only_allocates_bind; [intros st; apply grows_refl|]. intros iv.
    apply only_allocates_bind.
    { apply only_allocates_build. intros h. apply cloneDeep_grows. }
    intros c. apply only_allocates_bind; [apply only_allocates_setFields|].
    intros _. apply only_allocates_store_update. intros h t r h'.
    apply deepSet_grows.
Qed.

(** The calls made while a validation is suspended write into no
    object that existed before them. *)
Lemma run_calls_only_allocate (cs : list Ref.call) (st : Ref.engine) :
  Ref.grows (Ref.objects st) (Ref.objects (Ref.run_calls cs st)).
Proof.
  revert st.
  induction cs as [|c rest IH]; intros st.
  - apply grows_refl.
  - change (Ref.run_calls (c :: rest) st)
      with (Ref.run_calls rest (snd (Ref.run_call c st))).
    eapply grows_trans; [apply only_allocates_run_call | apply IH].
Qed.

Lemma ref_validate_begin_eq (st : Ref.engine) :
  Ref.validate_begin st =
  (Ok (Ref.mkSuspended (Ref.data st) (Ref.config_validate st)),
   Ref.write TouchedStore
     (fst (Ref.deepSet (Ref.objects st) (Ref.touched st) VTrue))
     (Ref.with_objects
        (snd (Ref.deepSet (Ref.objects st) (Ref.touched st) VTrue)) st)).
Proof.
  unfold Ref.validate_begin, Ref.bind, Ref.store_get, Ref.store_update,
    Ref.get_config_validate, Ref.ret.
  cbn [Ref.read]. destruct (Ref.deepSet _ _ _). reflexivity.
Qed.

(** C2.  When [validate()] starts, the validators are handed the object
    the data store holds.  Whatever calls to [setField], [setFields] and
    the other synchronous helpers are made while the validators are in
    flight, and whatever objects of the heap those calls are given,
    that object reads at every moment as it read at the entry of
    [validate()]: the calls build new objects and write into none that
    existed.  So the call ends as the validators end on the tree read
    at entry, and the Error Tree it publishes is their result on that
    tree, although the data store may by then hold another tree. *)
Theorem validate_snapshot_unaltered (st : Ref.engine)
    (cs : list Ref.call) :
  Ref.valid (Ref.objects st) (Ref.data st) = true ->
  let snapshot := Ref.tree_of (Ref.objects st) (Ref.data st) in
  exists s st1,
    Ref.validate_begin st = (Ok s, st1) /\
    Ref.currentData s = Ref.data st /\
    Ref.validators s = Ref.config_validate st /\
    (forall before after,
        cs = before ++ after ->
        Ref.tree_of (Ref.objects (Ref.run_calls before st1))
          (Ref.currentData s) = snapshot) /\
    Ref.validate_interleaved cs st =
      Ref.validate_resume s (Ref.run_calls cs st1) /\
    fst (Ref.validate_interleaved cs st) =
      executeValidation snapshot (Ref.config_validate st) /\
    forall r,
      executeValidation snapshot (Ref.config_validate st) = Ok r ->
      let st' := snd (Ref.validate_interleaved cs st) in
      Ref.tree_of (Ref.objects st') (Ref.errors st') = js_or r empty_obj.
Proof.
  intros Hv snapshot.
  do 2 eexists. split; [apply ref_validate_begin_eq|].
  cbn [Ref.currentData Ref.validators].
  split; [reflexivity|]. split; [reflexivity|].
  set (st1 := Ref.write TouchedStore _ _).
  assert (Hg1 : Ref.grows (Ref.objects st) (Ref.objects st1)).
  { subst st1. cbn [Ref.write Ref.with_objects Ref.objects].
    apply (alloc_tree_allocates
             (deepSet (Ref.tree_of (Ref.objects st) (Ref.touched st)) VTrue)). }
  assert (Hsame : forall before,
             Ref.tree_of (Ref.objects (Ref.run_calls before st1))
               (Ref.data st) = snapshot).
  { intros before. apply tree_of_grows; [|exact Hv].
    eapply grows_trans; [exact Hg1 | apply run_calls_only_allocate]. }
  split; [intros before after _; apply Hsame|].
  unfold Ref.validate_interleaved. rewrite ref_validate_begin_eq.
  fold st1. split; [reflexivity|].
  unfold Ref.validate_resume, Ref.bind, Ref.get_objects.
  cbn [Ref.currentData Ref.validators]. rewrite Hsame.
  destruct (executeValidation snapshot (Ref.config_validate st))
    as [r|e] eqn:E.
  - unfold Ref.build_in_heap, Ref.store_set, Ref.ret.
    destruct (alloc_tree_allocates (js_or r empty_obj)
                (Ref.objects (Ref.run_calls cs st1))) as (_ & _ & Ht).
    destruct (Ref.alloc_tree (js_or r empty_obj)
                (Ref.objects (Ref.run_calls cs st1))) as [v h'].
    cbn [fst snd] in *. split; [reflexivity|].
    intros r' [= <-]. cbn zeta.
    cbn [Ref.write Ref.with_objects Ref.objects Ref.errors]. exact Ht.
  - split; [reflexivity|]. intros r' [=].
Qed.

Lemma ref_setField_eq (st : Ref.engine) (path : string) (v : Ref.hval)
    (touch : bool) (segs : list segment) :
  parse path = Some segs ->
  let r1 := Ref.set_at segs v (Ref.data st) (Ref.objects st) in
  let r2 := Ref.set_at segs (Ref.HBool true) (Ref.touched st) (snd r1) in
  fst (Ref.setField path v touch st) = Ok tt /\
  Ref.data (snd (Ref.setField path v touch st)) = fst r1 /\
  Ref.objects (snd (Ref.setField path v touch st)) =
    (if touch then snd r2 else snd r1).
Proof.
  intros Hp. cbn zeta.
  unfold Ref.setField, Ref.setTouched, Ref.bind, Ref.store_update,
    Ref._set, Ref.get_formNode, Ref.get_objects, Ref.put_formNode,
    Ref.ret.
  rewrite Hp. cbn [Ref.read].
  destruct (Ref.set_at segs v (Ref.data st) (Ref.objects st)) as [d1 h1].
  cbn [fst snd]. destruct touch.
  - cbn [Ref.read Ref.write Ref.with_objects Ref.objects Ref.touched].
    destruct (Ref.set_at segs (Ref.HBool true) (Ref.touched st) h1)
      as [t2 h2].
    cbn [Ref.write Ref.with_objects Ref.formNode fst snd].
    destruct (Ref.formNode st); repeat split.
  - cbn [Ref.write Ref.with_objects Ref.formNode].
    destruct (Ref.formNode st); repeat split.
Qed.

(** On a closed heap [Ref.setField] does to the tree of the data store
    what [setField] does to the data store, and the object the store
    held before reads as it did. *)
Lemma ref_setField_refines (st : Ref.engine) (path : string)
    (v : Ref.hval) (touch : bool) (segs : list segment) :
  parse path = Some segs ->
  Ref.closed (Ref.objects st) = true ->
  Ref.valid (Ref.objects st) (Ref.data st) = true ->
  Ref.valid (Ref.objects st) v = true ->
  let st' := snd (Ref.setField path v touch st) in
  fst (Ref.setField path v touch st) = Ok tt /\
  Ref.tree_of (Ref.objects st') (Ref.data st') =
    set_at segs (Ref.tree_of (Ref.objects st) v)
      (Ref.tree_of (Ref.objects st) (Ref.data st)) /\
  Ref.tree_of (Ref.objects st') (Ref.data st) =
    Ref.tree_of (Ref.objects st) (Ref.data st).
Proof.
  intros Hp Hc Hd Hv. cbn zeta.
  destruct (ref_setField_eq st path v touch segs Hp) as (Hok & Hdata & Hobj).
  split; [exact Hok|]. split.
  - destruct (set_at_refines segs v (Ref.data st) (Ref.objects st) Hc Hv Hd)
      as (_ & Hv1 & Ht1).
    rewrite Hdata, Hobj. destruct touch; [|exact Ht1].
    rewrite <- Ht1. apply tree_of_grows; [apply set_at_grows | exact Hv1].
  - apply tree_of_grows; [|exact Hd].
    apply (only_allocates_run_call (Ref.CallSetField path v touch) st).
Qed.
(** [Ref.setFields] puts a clone of the tree of [values] into the data
    store, and the object the store held before reads as it did. *)
Lemma ref_setFields_refines (st : Ref.engine) (values : Ref.hval) :
  Ref.valid (Ref.objects st) (Ref.data st) = true ->
  let st' := snd (Ref.setFields values st) in
  Ref.tree_of (Ref.objects st') (Ref.data st') =
    _cloneDeep (Ref.tree_of (Ref.objects st) values) /\
  Ref.tree_of (Ref.objects st') (Ref.data st) =
    Ref.tree_of (Ref.objects st) (Ref.data st).
Proof.
  intros Hd. cbn zeta. split.
  - unfold Ref.setFields, Ref.bind, Ref.build_in_heap, Ref.store_set,
      Ref.get_formNode, Ref.get_objects, Ref.put_formNode, Ref.ret,
      Ref._cloneDeep.
    destruct (alloc_tree_allocates
                (Ref.tree_of (Ref.objects st) values) (Ref.objects st))
      as (_ & _ & Ht).
    destruct (Ref.alloc_tree (Ref.tree_of (Ref.objects st) values)
                (Ref.objects st)) as [c h1].
    cbn [fst snd Ref.write Ref.with_objects Ref.formNode] in *.
    rewrite cloneDeep_id.
    destruct (Ref.formNode st); exact Ht.
  - apply tree_of_grows; [|exact Hd].
    apply (only_allocates_run_call (Ref.CallSetFields values) st).
Qed.
End RefProperties.

(** ** The helpers on a concrete form *)

Import Sample.

(** The spec's example of two validators: B overrides A on the shared
    path and B's extra path is kept. *)
Example executeValidation_two_validators :
  executeValidation values0
    [ (fun _ => Ok (VObj [("email", VStr "required")]));
      (fun _ => Ok (VObj [("email", VStr "invalid");
                          ("password", VStr "required")])) ]
  = Ok (VObj [("email", VStr "invalid"); ("password", VStr "required")]).
Proof. reflexivity. Qed.

(** The spec's example of [setField] past the end of an array. *)
Example set_extends_array :
  _set values0 "addresses[1].city" (VStr "Lima") =
  Ok (VObj [("email", VStr "");
            ("addresses",
             VArr [VObj [("city", VStr "Quito")];
                   VObj [("city", VStr "Lima")]])]).
Proof. reflexivity. Qed.

(** The user types an email while a validation is in flight: the data
    store holds the new email, the published errors are those of the
    old one. *)
Example validate_while_typing :
  let st := snd (validate_interleaved
                   [CallSetField "email" (VStr "ana@example.org") true]
                   engine0) in
  child (Key "email") (data st) = VStr "ana@example.org" /\
  errors st = VObj [("email", VStr "required")] /\
  executeValidation (data st) (config_validate st) = Ok VUndef.
Proof. repeat split. Qed.

(** [reset()] followed by [validate()] with no validators registered:
    empty errors, every touched leaf true. *)
Example reset_then_validate :
  let st0 := @mkEngine dom values0 touched0 errors0 (Some form) values0 [] [] in
  let st := snd (validate (snd (reset st0))) in
  errors st = empty_obj /\ all_leaves VTrue (touched st) = true.
Proof. repeat split. Qed.

(** A form with no DOM: [setField] on the engine as [createHelpers]
    leaves it writes the stores and returns. *)
Example setField_headless :
  let st0 := @createHelpers dom values0 empty_obj empty_obj VUndef [] in
  let st := snd (setField "email" (VStr "ana@example.org") true st0) in
  fst (setField "email" (VStr "ana@example.org") true st0) = Ok tt /\
  formNode st = None /\
  child (Key "email") (data st) = VStr "ana@example.org" /\
  touched st = VObj [("email", VTrue)] /\
  initialValues st = empty_obj.
Proof. repeat split. Qed.

(** A path outside the grammar: [setField] throws MalformedPath and no
    store is written. *)
Example setField_malformed :
  setField "a..b" (VStr "x") true engine0 =
  (Throw (MalformedPath "a..b"), engine0).
Proof. reflexivity. Qed.

(** [validate_publishes] on the sample engine, whose one validator
    resolves with an error for the empty email. *)
Lemma validate_publishes_witness :
  executeValidation (data engine0) (config_validate engine0) =
    Ok (VObj [("email", VStr "required")]) /\
  exists st',
    validate engine0 = (Ok (VObj [("email", VStr "required")]), st') /\
    touched st' = VObj [("email", VTrue)] /\
    errors st' = VObj [("email", VStr "required")].
Proof.
  split; [reflexivity|].
  destruct (validate_publishes engine0 (VObj [("email", VStr "required")])
              eq_refl)
    as (st' & Hv & Ht & _ & _ & He & _).
  exists st'. split; [exact Hv|]. split; [exact Ht | exact He].
Defined.

(** [validate_failure_keeps_errors] on the sample engine with the
    failing remote check registered. *)
Lemma validate_failure_keeps_errors_witness :
  In remote_check (config_validate engine1) /\
  remote_check (data engine1) = Throw (ValidatorFailure (VStr "offline")) /\
  exists (v' : validator) e' st',
    v' (data engine1) = Throw e' /\
    validate engine1 = (Throw e', st') /\
    errors st' = VObj [("email", VStr "stale")].
Proof.
  split; [right; left; reflexivity|]. split; [reflexivity|].
  destruct (validate_failure_keeps_errors engine1 remote_check
              (ValidatorFailure (VStr "offline"))
              (or_intror (or_introl eq_refl)) eq_refl)
    as (v' & e' & st' & _ & Hv' & Hval & He & _).
  exists v', e', st'. split; [exact Hv'|]. split; [exact Hval | exact He].
Defined.

(** [setField_updates] on the sample engine: the email input is the
    first control at the path and is the only element changed. *)
Lemma setField_updates_witness :
  parse "email" = Some [Key "email"] /\
  exists st',
    setField "email" (VStr "ana@example.org") true engine0 = (Ok tt, st') /\
    _get (data st') "email" = Ok (VStr "ana@example.org") /\
    formNode st' =
      Some [submit_button;
            mkInput true "email" "email" (VStr "ana@example.org");
            city_input].
Proof.
  split; [reflexivity|].
  destruct (setField_updates engine0 "email" (VStr "ana@example.org") true
              [Key "email"] eq_refl)
    as (st' & Hs & _ & Hg & _ & _ & _ & _ & Hf).
  exists st'. split; [exact Hs|]. split; [exact Hg|].
  exact (proj1 (Hf form eq_refl)).
Defined.

(** [set_get_roundtrip] on the sample values: a second address is
    added and the first one reads as before. *)
Lemma set_get_roundtrip_witness :
  parse "addresses[1].city" = Some [Key "addresses"; Index 1; Key "city"] /\
  exists root',
    _set values0 "addresses[1].city" (VStr "Lima") = Ok root' /\
    _get root' "addresses[1].city" = Ok (VStr "Lima") /\
    _get root' "addresses[0].city" = Ok (VStr "Quito").
Proof.
  split; [reflexivity|].
  destruct (set_get_roundtrip values0 "addresses[1].city" (VStr "Lima")
              [Key "addresses"; Index 1; Key "city"] eq_refl)
    as (root' & Hs & _ & Hg & Hframe).
  exists root'. split; [exact Hs|]. split; [exact Hg|].
  exact (Hframe "addresses[0].city" [Key "addresses"; Index 0; Key "city"]
           eq_refl eq_refl).
Defined.

(** [validate_failure_still_touches] on the sample engine with the
    failing remote check registered. *)
Lemma validate_failure_still_touches_witness :
  In remote_check (config_validate engine1) /\
  remote_check (data engine1) = Throw (ValidatorFailure (VStr "offline")) /\
  exists e' st',
    validate engine1 = (Throw e', st') /\
    touched st' = VObj [("email", VTrue)] /\
    log st' = [Published TouchedStore (VObj [("email", VTrue)])].
Proof.
  split; [right; left; reflexivity|]. split; [reflexivity|].
  destruct (validate_failure_still_touches engine1 remote_check
              (ValidatorFailure (VStr "offline"))
              (or_intror (or_introl eq_refl)) eq_refl)
    as (e' & st' & Hval & Ht & _ & _ & _ & Hl).
  exists e', st'. split; [exact Hval|]. split; [exact Ht | exact Hl].
Defined.

(** ** The further properties on the concrete form *)


(** [setError_injects] on the sample engine: a server-side error on the
    city is gone after the next validation. *)
Lemma setError_injects_witness :
  parse "addresses[0].city" =
    Some [Key "addresses"; Index 0; Key "city"] /\
  exists st',
    setError "addresses[0].city" (VStr "unknown city") engine0
      = (Ok tt, st') /\
    _get (errors st') "addresses[0].city" = Ok (VStr "unknown city") /\
    _get (errors st') "email" = Ok (VStr "stale") /\
    errors (snd (validate st')) = VObj [("email", VStr "required")].
Proof.
  split; [reflexivity|].
  destruct (setError_injects engine0 "addresses[0].city"
              (VStr "unknown city")
              [Key "addresses"; Index 0; Key "city"] eq_refl)
    as (st' & Hs & Hg & Hframe & _ & _ & _ & _ & Hval).
  exists st'. split; [exact Hs|]. split; [exact Hg|]. split.
  - exact (Hframe "email" [Key "email"] eq_refl eq_refl).
  - exact (proj2 (Hval (VObj [("email", VStr "required")]) eq_refl)).
Defined.

(** [malformed_path_changes_nothing] on the sample engine. *)
Lemma malformed_path_changes_nothing_witness :
  parse "addresses[x].city" = None /\
  setField "addresses[x].city" (VStr "Lima") true engine0 =
    (Throw (MalformedPath "addresses[x].city"), engine0).
Proof.
  split; [reflexivity|].
  exact (proj1 (malformed_path_changes_nothing engine0 "addresses[x].city"
                  (VStr "Lima") true eq_refl)).
Defined.

(** [validate_last_to_settle_wins] on the sample engine: the email is
    filled in between the two calls, the second call finds no error,
    and the error of the first call is what stays. *)
Lemma validate_last_to_settle_wins_witness :
  exists st',
    validate_overlapped
      [CallSetField "email" (VStr "ana@example.org") true] engine0 =
      (Ok (VObj [("email", VStr "required")]), Ok VUndef, st') /\
    errors st' = VObj [("email", VStr "required")] /\
    child (Key "email") (data st') = VStr "ana@example.org".
Proof.
  destruct (validate_last_to_settle_wins
              [CallSetField "email" (VStr "ana@example.org") true] engine0
              (VObj [("email", VStr "required")]) VUndef eq_refl eq_refl)
    as (st' & Hv & He & Hd & _).
  exists st'. split; [exact Hv|]. split; [exact He|].
  rewrite Hd. reflexivity.
Defined.

(** [setField_spares_other_elements] on the sample form: the button,
    which is no form control, stays as it is. *)
Lemma setField_spares_other_elements_witness :
  formNode engine0 = Some form /\
  exists els',
    formNode (snd (setField "email" (VStr "ana@example.org") true engine0))
      = Some els' /\
    List.length els' = 3 /\
    nth_error els' 0 = Some submit_button.
Proof.
  split; [reflexivity|].
  destruct (setField_spares_other_elements engine0 "email"
              (VStr "ana@example.org") true form eq_refl)
    as (els' & Hf & Hl & Hk).
  exists els'. split; [exact Hf|]. split; [exact Hl|].
  exact (Hk 0 submit_button eq_refl (or_introl eq_refl)).
Defined.

(** [setField_publishes] on the sample engine. *)
Lemma setField_publishes_witness :
  parse "email" = Some [Key "email"] /\
  log (snd (setField "email" (VStr "ana@example.org") true engine0)) =
    [Published DataStore
       (VObj [("email", VStr "ana@example.org");
              ("addresses", VArr [VObj [("city", VStr "Quito")]])]);
     Published TouchedStore (VObj [("email", VTrue)])].
Proof.
  split; [reflexivity|].
  exact (proj1 (setField_publishes engine0 "email" (VStr "ana@example.org")
                  true [Key "email"] eq_refl)).
Defined.

(** [validate_twice] on the sample engine. *)
Lemma validate_twice_witness :
  executeValidation (data engine0) (config_validate engine0) =
    Ok (VObj [("email", VStr "required")]) /\
  fst (validate (snd (validate engine0))) =
    Ok (VObj [("email", VStr "required")]).
Proof.
  split; [reflexivity|].
  exact (proj1 (validate_twice engine0 (VObj [("email", VStr "required")])
                  eq_refl)).
Defined.

(** [validate_snapshot_unaltered] on the sample engine: while the
    validators are in flight the email is filled in and the city
    changed; the object they hold reads as at entry, the data store
    holds the new tree, and the published error is the one of the empty
    email. *)
Lemma validate_snapshot_unaltered_witness :
  Ref.valid (Ref.objects held0) (Ref.data held0) = true /\
  let cs :=
    [Ref.CallSetField "email" (Ref.HStr "ana@example.org") true;
     Ref.CallSetField "addresses[0].city" (Ref.HStr "Lima") false] in
  let st' := snd (Ref.validate_interleaved cs held0) in
  fst (Ref.validate_interleaved cs held0) =
    Ok (VObj [("email", VStr "required")]) /\
  Ref.tree_of (Ref.objects st') (Ref.errors st') =
    VObj [("email", VStr "required")] /\
  Ref.tree_of (Ref.objects st') (Ref.data held0) = values0 /\
  Ref.tree_of (Ref.objects st') (Ref.data st') =
    VObj [("email", VStr "ana@example.org");
          ("addresses", VArr [VObj [("city", VStr "Lima")]])].
Proof.
  split; [reflexivity|]. cbn zeta.
  destruct (validate_snapshot_unaltered held0
              [Ref.CallSetField "email" (Ref.HStr "ana@example.org") true;
               Ref.CallSetField "addresses[0].city" (Ref.HStr "Lima") false]
              eq_refl)
    as (s & st1 & _ & _ & _ & _ & _ & Hres & Herr).
  split; [exact Hres|].
  split; [exact (Herr (VObj [("email", VStr "required")]) eq_refl)|].
  split; reflexivity.
Defined.

(** What the calls do not do: assigning into the object the data store
    holds changes the tree read by whoever holds that object. *)
Example overwrite_alters_held_object :
  Ref.data held0 = Ref.HRef 2 /\
  Ref.tree_of (Ref.objects held0) (Ref.data held0) = values0 /\
  Ref.tree_of
    (Ref.overwrite 2
       (Ref.CObj [("email", Ref.HStr "ana@example.org");
                  ("addresses", Ref.HRef 1)])
       (Ref.objects held0))
    (Ref.data held0) =
    VObj [("email", VStr "ana@example.org");
          ("addresses", VArr [VObj [("city", VStr "Quito")]])].
Proof. repeat split. Qed.
